(** * native-messaging-connector: framing engine and manifest bootstrap

    A shallow embedding of [src/NativeConnection.ts] (the length-prefixed
    JSON framing engine) and of [NativeConnector.ts] (manifest lookup),
    followed by the properties of the two modules.

    Conventions of the embedding:
    - a [Buffer] is the list of its octets, each an integer in 0..255;
    - a JavaScript string is the list of its UTF-16 code units, so that
      [String.prototype.length] is [length];
    - a method of the connection is a computation over a [World]: the
      fields of the connection object together with the promises and the
      timers its callbacks refer to.  A computation returns a completion
      (normal, or abrupt when an exception is thrown) and the world as the
      exception left it;
    - what the host supplies ([JSON.parse], [JSON.stringify],
      [os.endianness()]) is a type class, [Runtime]. *)

From Stdlib Require Import String Ascii DecimalString.
From Stdlib Require Import ZArith List Bool Lia.
Import ListNotations.
Local Open Scope Z_scope.
Set Warnings "-register-all".


(** ** Octets and strings *)

Definition Buffer := list Z.

Definition jsstring := list Z.

(** The code units of an ASCII literal. *)
Definition units (s : string) : jsstring :=
  map (fun a => Z.of_nat (nat_of_ascii a)) (list_ascii_of_string s).

Definition is_high_surrogate (u : Z) : bool := (0xD800 <=? u) && (u <=? 0xDBFF).

Definition is_low_surrogate (u : Z) : bool := (0xDC00 <=? u) && (u <=? 0xDFFF).

Definition replacement_bytes : list Z := [0xEF; 0xBF; 0xBD].

(** UTF-8 encoding of one code point. *)
Definition utf8_of_codepoint (c : Z) : list Z :=
  if c <? 0x80 then [c]
  else if c <? 0x800 then
    [Z.lor 0xC0 (Z.shiftr c 6); Z.lor 0x80 (Z.land c 0x3F)]
  else if c <? 0x10000 then
    [Z.lor 0xE0 (Z.shiftr c 12);
     Z.lor 0x80 (Z.land (Z.shiftr c 6) 0x3F);
     Z.lor 0x80 (Z.land c 0x3F)]
  else
    [Z.lor 0xF0 (Z.shiftr c 18);
     Z.lor 0x80 (Z.land (Z.shiftr c 12) 0x3F);
     Z.lor 0x80 (Z.land (Z.shiftr c 6) 0x3F);
     Z.lor 0x80 (Z.land c 0x3F)].

(** The characters of a string, each as its UTF-8 octets.  A surrogate pair
    is one character of four octets; an unpaired surrogate is written as
    U+FFFD. *)
Fixpoint utf8_chars (s : jsstring) : list (list Z) :=
  match s with
  | [] => []
  | u :: rest =>
      if is_high_surrogate u then
        match rest with
        | l :: rest' =>
            if is_low_surrogate l
            then utf8_of_codepoint
                   (0x10000 + (u - 0xD800) * 0x400 + (l - 0xDC00))
                 :: utf8_chars rest'
            else replacement_bytes :: utf8_chars rest
        | [] => [replacement_bytes]
        end
      else if is_low_surrogate u then replacement_bytes :: utf8_chars rest
      else utf8_of_codepoint u :: utf8_chars rest
  end.

(** [Buffer.from(s, "utf-8")]: the whole encoding. *)
Definition utf8_encode (s : jsstring) : list Z := concat (utf8_chars s).

(** [Buffer.byteLength(s, "utf-8")]. *)
Definition utf8_length (s : jsstring) : Z := Z.of_nat (length (utf8_encode s)).

(** The octets [buf.write] stores when [room] octets are left: whole
    characters only, stopping at the first one that does not fit. *)
Fixpoint take_fitting (chars : list (list Z)) (room : nat) : list Z :=
  match chars with
  | [] => []
  | c :: cs =>
      if (length c <=? room)%nat
      then c ++ take_fitting cs (room - length c)
      else []
  end.

(** [Buffer.alloc(size)]: zero-filled. *)
Definition Buffer_alloc (size : Z) : Buffer := repeat 0 (Z.to_nat size).

(** [buf.write(s, offset, "utf-8")]. *)
Definition Buffer_write (buf : Buffer) (s : jsstring) (offset : Z) : Buffer :=
  let off := Z.to_nat offset in
  let bytes := take_fitting (utf8_chars s) (length buf - off) in
  firstn off buf ++ bytes ++ skipn (off + length bytes) buf.

(** [buf.slice(start)] for a non-negative [start]: past the end it is the
    empty buffer. *)
Definition Buffer_slice (buf : Buffer) (start : Z) : Buffer :=
  skipn (Z.to_nat start) buf.

(** UTF-16 code units of a decoded code point. *)
Definition utf16_of_codepoint (c : Z) : jsstring :=
  if c <? 0x10000 then [c]
  else [0xD800 + Z.shiftr (c - 0x10000) 10; 0xDC00 + Z.land (c - 0x10000) 0x3FF].

(** State of the UTF-8 decoder between two octets: how many continuation
    octets are still expected, the code point so far, and the range allowed
    for the next octet. *)
Record DecoderState := {
  needed : nat;
  codepoint : Z;
  lower : Z;
  upper : Z;
}.

Definition decoder_idle : DecoderState :=
  {| needed := 0; codepoint := 0; lower := 0x80; upper := 0xBF |}.

(** A lead octet: what it emits at once and the state it leaves. *)
Definition decode_lead (b : Z) : jsstring * DecoderState :=
  if b <=? 0x7F then ([b], decoder_idle)
  else if (0xC2 <=? b) && (b <=? 0xDF) then
    ([], {| needed := 1; codepoint := Z.land b 0x1F; lower := 0x80; upper := 0xBF |})
  else if (0xE0 <=? b) && (b <=? 0xEF) then
    ([], {| needed := 2; codepoint := Z.land b 0xF;
            lower := if b =? 0xE0 then 0xA0 else 0x80;
            upper := if b =? 0xED then 0x9F else 0xBF |})
  else if (0xF0 <=? b) && (b <=? 0xF4) then
    ([], {| needed := 3; codepoint := Z.land b 0x7;
            lower := if b =? 0xF0 then 0x90 else 0x80;
            upper := if b =? 0xF4 then 0x8F else 0xBF |})
  else ([0xFFFD], decoder_idle).

(** Decoding with replacement: an ill-formed sequence becomes one U+FFFD
    per maximal subpart, and the octet that broke it is read again as a
    lead octet. *)
Fixpoint utf8_decode_from (st : DecoderState) (bs : list Z) : jsstring :=
  match bs with
  | [] => match needed st with O => [] | S _ => [0xFFFD] end
  | b :: bs' =>
      match needed st with
      | O => let (out, st') := decode_lead b in out ++ utf8_decode_from st' bs'
      | S n =>
          if (lower st <=? b) && (b <=? upper st) then
            let c := Z.lor (Z.shiftl (codepoint st) 6) (Z.land b 0x3F) in
            match n with
            | O => utf16_of_codepoint c ++ utf8_decode_from decoder_idle bs'
            | S _ =>
                utf8_decode_from
                  {| needed := n; codepoint := c; lower := 0x80; upper := 0xBF |} bs'
            end
          else
            let (out, st') := decode_lead b in
            0xFFFD :: out ++ utf8_decode_from st' bs'
      end
  end.

Definition utf8_decode (bs : list Z) : jsstring := utf8_decode_from decoder_idle bs.

(** [buf.toString("utf-8", start, end)]: both bounds are clamped to the
    buffer, and an empty range gives the empty string. *)
Definition Buffer_toString (buf : Buffer) (start stop : Z) : jsstring :=
  utf8_decode (firstn (Z.to_nat stop - Z.to_nat start) (skipn (Z.to_nat start) buf)).

(** [buf.toString("utf-8", start)] and [buf.toString("utf-8")]. *)
Definition Buffer_toString_from (buf : Buffer) (start : Z) : jsstring :=
  utf8_decode (skipn (Z.to_nat start) buf).

(** A field of type string that can hold [undefined] or [null]. *)
Inductive MaybeString :=
| js_undefined
| js_null
| js_string (s : jsstring).

(** [ToString] as applied by [+=]. *)
Definition ToString (x : MaybeString) : jsstring :=
  match x with
  | js_undefined => units "undefined"
  | js_null => units "null"
  | js_string s => s
  end.

(** ** Exceptions and completions *)

Inductive JsError :=
| RangeError
| SyntaxError
| TypeError
| SystemError                               (* a failed file-system call *)
| ErrorObject (message : string)            (* [new Error(message)] *)
| ErrorAbout (message : string) (e : JsError) (* [new Error(message + e)] *)
| StringValue (s : string).                 (* a string used as rejection reason *)

Inductive Completion (A : Type) :=
| Normal (a : A)
| Abrupt (e : JsError)
| Exhausted.                                (* the model's loop bound was reached *)

Arguments Normal {A} a.
Arguments Abrupt {A} e.
Arguments Exhausted {A}.

Inductive Endianness := BE | LE.

(** [buf.readUInt32LE(offset)] and [buf.readUInt32BE(offset)]: a range
    error when four octets are not available at [offset]. *)
Definition readUInt32LE (buffer : Buffer) (offset : Z) : Completion Z :=
  match skipn (Z.to_nat offset) buffer with
  | b0 :: b1 :: b2 :: b3 :: _ =>
      Normal (b0 + b1 * 2 ^ 8 + b2 * 2 ^ 16 + b3 * 2 ^ 24)
  | _ => Abrupt RangeError
  end.

Definition readUInt32BE (buffer : Buffer) (offset : Z) : Completion Z :=
  match skipn (Z.to_nat offset) buffer with
  | b0 :: b1 :: b2 :: b3 :: _ =>
      Normal (b0 * 2 ^ 24 + b1 * 2 ^ 16 + b2 * 2 ^ 8 + b3)
  | _ => Abrupt RangeError
  end.

Definition uint32_bytes_LE (value : Z) : list Z :=
  [Z.land value 0xFF; Z.land (Z.shiftr value 8) 0xFF;
   Z.land (Z.shiftr value 16) 0xFF; Z.land (Z.shiftr value 24) 0xFF].

(** Overwrite four octets at [offset]. *)
Definition store4 (buffer : Buffer) (offset : Z) (bytes : list Z) : Buffer :=
  firstn (Z.to_nat offset) buffer ++ bytes ++ skipn (Z.to_nat offset + 4) buffer.

(** [buf.writeUInt32LE(value, offset)] and [buf.writeUInt32BE(value, offset)]:
    a range error when the value is not a uint32 or the buffer is too short. *)
Definition writeUInt32LE (buffer : Buffer) (value offset : Z) : Completion Buffer :=
  if (0 <=? value) && (value <? 2 ^ 32)
     && (Z.to_nat offset + 4 <=? length buffer)%nat
  then Normal (store4 buffer offset (uint32_bytes_LE value))
  else Abrupt RangeError.

Definition writeUInt32BE (buffer : Buffer) (value offset : Z) : Completion Buffer :=
  if (0 <=? value) && (value <? 2 ^ 32)
     && (Z.to_nat offset + 4 <=? length buffer)%nat
  then Normal (store4 buffer offset (rev (uint32_bytes_LE value)))
  else Abrupt RangeError.

(** ** The host runtime *)

Class Runtime := {
  JSValue : Type;
  (** [JSON.parse]: [None] when it throws a SyntaxError. *)
  JSON_parse : jsstring -> option JSValue;
  (** [JSON.stringify(v, null, 0)] on a serializable value. *)
  JSON_stringify : JSValue -> jsstring;
  (** [os.endianness()]. *)
  os_endianness : Endianness;
}.

(** ** Computations that can throw

    [M S A] is a computation over a state [S]: it ends with a completion and
    the state it reached, also when it throws, because whatever was assigned
    before the exception stays assigned. *)

Definition M (S A : Type) : Type := S -> Completion A * S.

Definition ret {S A} (a : A) : M S A := fun w => (Normal a, w).

Definition throw {S A} (e : JsError) : M S A := fun w => (Abrupt e, w).

Definition bind {S A B} (m : M S A) (k : A -> M S B) : M S B :=
  fun w =>
    match m w with
    | (Normal a, w') => k a w'
    | (Abrupt e, w') => (Abrupt e, w')
    | (Exhausted, w') => (Exhausted, w')
    end.

Definition lift {S A} (c : Completion A) : M S A := fun w => (c, w).

Definition read {S A} (f : S -> A) : M S A := fun w => (Normal (f w), w).

Definition modify {S} (f : S -> S) : M S unit := fun w => (Normal tt, f w).

Declare Scope js_scope.
Delimit Scope js_scope with js.
Notation "x <- m ;; k" := (bind m (fun x => k))
  (at level 61, m at next level, right associativity) : js_scope.
Notation "m ;; k" := (bind m (fun _ => k))
  (at level 61, right associativity) : js_scope.
Local Open Scope js_scope.

(** ** The connection object *)

Inductive NativeAppType := Firefox | Chrome | Chromium | Vivaldi.

(** An entry of [_readQueue].  [readMessage] pushes the promise's own
    [resolve] when no timeout is armed, and otherwise a fresh arrow function
    [x => { clearTimeout(timeoutId); resolve(x) }]: two different function
    objects for the same promise [p]. *)
Inductive Callback :=
| Resolve (p : nat)
| ClearAndResolve (p : nat).

Definition Callback_eqb (a b : Callback) : bool :=
  match a, b with
  | Resolve p, Resolve q => Nat.eqb p q
  | ClearAndResolve p, ClearAndResolve q => Nat.eqb p q
  | _, _ => false
  end.

(** The promise a queued callback settles. *)
Definition promise_of (callback : Callback) : nat :=
  match callback with
  | Resolve p => p
  | ClearAndResolve p => p
  end.

(** The child process as the connection sees it: how often [kill()] was
    called, the chunks written to its standard input, and the error its
    standard input raises on a write, if any. *)
Record ChildProcess := {
  kills : nat;
  stdin : list Buffer;
  stdin_error : option JsError;
}.

Record NativeConnection := {
  _process : ChildProcess;
  _app_type : NativeAppType;
  _connected : bool;
  _messageQueue : list Buffer;
  _readQueue : list Callback;
  _incompleteMessage : MaybeString;
  _remainingMessageSize : Z;
}.

Definition with_process (x : ChildProcess) (c : NativeConnection) :=
  {| _process := x; _app_type := _app_type c; _connected := _connected c;
     _messageQueue := _messageQueue c; _readQueue := _readQueue c;
     _incompleteMessage := _incompleteMessage c;
     _remainingMessageSize := _remainingMessageSize c |}.

Definition with_connected (x : bool) (c : NativeConnection) :=
  {| _process := _process c; _app_type := _app_type c; _connected := x;
     _messageQueue := _messageQueue c; _readQueue := _readQueue c;
     _incompleteMessage := _incompleteMessage c;
     _remainingMessageSize := _remainingMessageSize c |}.

Definition with_messageQueue (x : list Buffer) (c : NativeConnection) :=
  {| _process := _process c; _app_type := _app_type c; _connected := _connected c;
     _messageQueue := x; _readQueue := _readQueue c;
     _incompleteMessage := _incompleteMessage c;
     _remainingMessageSize := _remainingMessageSize c |}.

Definition with_readQueue (x : list Callback) (c : NativeConnection) :=
  {| _process := _process c; _app_type := _app_type c; _connected := _connected c;
     _messageQueue := _messageQueue c; _readQueue := x;
     _incompleteMessage := _incompleteMessage c;
     _remainingMessageSize := _remainingMessageSize c |}.

Definition with_incompleteMessage (x : MaybeString) (c : NativeConnection) :=
  {| _process := _process c; _app_type := _app_type c; _connected := _connected c;
     _messageQueue := _messageQueue c; _readQueue := _readQueue c;
     _incompleteMessage := x;
     _remainingMessageSize := _remainingMessageSize c |}.

Definition with_remainingMessageSize (x : Z) (c : NativeConnection) :=
  {| _process := _process c; _app_type := _app_type c; _connected := _connected c;
     _messageQueue := _messageQueue c; _readQueue := _readQueue c;
     _incompleteMessage := _incompleteMessage c;
     _remainingMessageSize := x |}.

(** [array.indexOf(x)]: the first index holding [x], or -1. *)
Fixpoint indexOf (q : list Callback) (x : Callback) : Z :=
  match q with
  | [] => -1
  | y :: q' =>
      if Callback_eqb y x then 0
      else let i := indexOf q' x in if i <? 0 then -1 else i + 1
  end.

(** [array.splice(index, 1)] for an index inside the array. *)
Definition splice1 (q : list Callback) (index : Z) : list Callback :=
  firstn (Z.to_nat index) q ++ skipn (S (Z.to_nat index)) q.

Definition len (b : Buffer) : Z := Z.of_nat (length b).

Section Engine.

Context `{RT : Runtime}.

Inductive PromiseState :=
| Pending
| Fulfilled (v : JSValue)
| Rejected (e : JsError).

(** The connection with the promises handed out by [readMessage] (promise
    [p] is at index [p]) and the timeouts that are armed, each named by the
    promise it belongs to. *)
Record World := {
  this : NativeConnection;
  promises : list PromiseState;
  timers : list nat;
}.

Definition on_this (f : NativeConnection -> NativeConnection) : M World unit :=
  modify (fun w => {| this := f (this w); promises := promises w; timers := timers w |}).

Definition on_promises (f : list PromiseState -> list PromiseState) : M World unit :=
  modify (fun w => {| this := this w; promises := f (promises w); timers := timers w |}).

Definition on_timers (f : list nat -> list nat) : M World unit :=
  modify (fun w => {| this := this w; promises := promises w; timers := f (timers w) |}).

(** A promise is settled once: settling a promise that is no longer pending
    does nothing. *)
Definition settle (p : nat) (s : PromiseState) (ps : list PromiseState) :=
  match nth_error ps p with
  | Some Pending => firstn p ps ++ s :: skipn (S p) ps
  | _ => ps
  end.

Definition resolve (p : nat) (x : JSValue) : M World unit :=
  on_promises (settle p (Fulfilled x)).

Definition reject (p : nat) (e : JsError) : M World unit :=
  on_promises (settle p (Rejected e)).

Definition setTimeout (p : nat) : M World unit := on_timers (cons p).

Definition clearTimeout (p : nat) : M World unit :=
  on_timers (filter (fun q => negb (Nat.eqb q p))).

(** Calling what [_readQueue.shift()] returned; [undefined] is not callable. *)
Definition call (callback : option Callback) (x : JSValue) : M World unit :=
  match callback with
  | None => throw TypeError
  | Some (Resolve p) => resolve p x
  | Some (ClearAndResolve p) => clearTimeout p ;; resolve p x
  end.

Definition readUint32 (buffer : Buffer) (offset : Z) : Completion Z :=
  match os_endianness with
  | BE => readUInt32BE buffer offset
  | LE => readUInt32LE buffer offset
  end.

Definition writeUint32 (buffer : Buffer) (value offset : Z) : Completion Buffer :=
  match os_endianness with
  | BE => writeUInt32BE buffer value offset
  | LE => writeUInt32LE buffer value offset
  end.

Definition NativeConnection_new (process : ChildProcess) (app_type : NativeAppType)
  : NativeConnection :=
  {| _process := process; _app_type := app_type; _connected := true;
     _messageQueue := []; _readQueue := [];
     _incompleteMessage := js_undefined;
     _remainingMessageSize := 0 |}.

Definition readQueue_shift : M World (option Callback) :=
  fun w =>
    match _readQueue (this w) with
    | [] => (Normal None, w)
    | callback :: rest => (on_this (with_readQueue rest) ;; ret (Some callback)) w
    end.

Definition messageQueue_shift : M World unit :=
  on_this (fun c => with_messageQueue (tl (_messageQueue c)) c).

(** [this._messageQueue[0] = b]. *)
Definition messageQueue_set_head (b : Buffer) : M World unit :=
  on_this (fun c => with_messageQueue (b :: tl (_messageQueue c)) c).

Definition parse (data : jsstring) : M World JSValue :=
  match JSON_parse data with
  | Some v => ret v
  | None => throw SyntaxError
  end.

(** The argument [JSON.parse(data)] is evaluated before the call, so a
    payload that does not parse throws after the reader was shifted and
    before anything is called. *)
Definition dispatchMessage (data : jsstring) : M World unit :=
  callback <- readQueue_shift ;;
  msg <- parse data ;;
  call callback msg.

(** One turn of the [while] loop of [processMessageQueue], for the head
    chunk [buffer]. *)
Definition processChunk (buffer : Buffer) : M World unit :=
  remaining <- read (fun w => _remainingMessageSize (this w)) ;;
  if remaining >? 0 then
    if len buffer >=? remaining then
      incomplete <- read (fun w => _incompleteMessage (this w)) ;;
      let text := ToString incomplete ++ Buffer_toString buffer 0 remaining in
      on_this (with_incompleteMessage (js_string text)) ;;
      dispatchMessage text ;;
      (if len buffer >? remaining
       then messageQueue_set_head (Buffer_slice buffer remaining)
       else messageQueue_shift) ;;
      on_this (with_remainingMessageSize 0) ;;
      on_this (with_incompleteMessage js_null)
    else
      incomplete <- read (fun w => _incompleteMessage (this w)) ;;
      on_this (with_incompleteMessage
                 (js_string (ToString incomplete ++ Buffer_toString_from buffer 0))) ;;
      on_this (with_remainingMessageSize (remaining - len buffer)) ;;
      messageQueue_shift
  else
    messageLen <- lift (readUint32 buffer 0) ;;
    if messageLen + 4 >=? len buffer then
      let messageStr := Buffer_toString buffer 4 (4 + messageLen) in
      dispatchMessage messageStr ;;
      (if messageLen + 4 >? len buffer
       then messageQueue_set_head (Buffer_slice buffer (messageLen + 4))
       else messageQueue_shift)
    else
      on_this (with_incompleteMessage (js_string (Buffer_toString_from buffer 4))) ;;
      on_this (with_remainingMessageSize (messageLen - (len buffer - 4))) ;;
      messageQueue_shift.

(** The [while] loop, bounded by [fuel] turns. *)
Fixpoint processLoop (fuel : nat) : M World unit :=
  fun w =>
    match _messageQueue (this w), _readQueue (this w) with
    | buffer :: _, _ :: _ =>
        match fuel with
        | O => (Exhausted, w)
        | S fuel' => (processChunk buffer ;; processLoop fuel') w
        end
    | _, _ => (Normal tt, w)
    end.

(** Every turn shortens [_messageQueue] or [_readQueue], so the sum of their
    lengths bounds the number of turns. *)
Definition processMessageQueue : M World unit :=
  fun w =>
    match _readQueue (this w) with
    | [] => (Normal tt, w)
    | _ :: _ =>
        match _messageQueue (this w) with
        | [] => (Normal tt, w)
        | _ :: _ =>
            processLoop (length (_messageQueue (this w)) + length (_readQueue (this w))) w
        end
    end.

(** [streamWrite(this._process.stdin, chunk)].  The callback handed to
    [stream.write] takes no argument and resolves: when the write fails, the
    stream calls it with the error, which it drops, before it emits [error],
    and by then the callback has removed the [error] listener that would
    reject.  So the promise is resolved either way, and a failed write only
    leaves the chunk unwritten. *)
Definition streamWrite (chunk : Buffer) : M World unit :=
  fun w =>
    let process := _process (this w) in
    match stdin_error process with
    | Some _ => (Normal tt, w)
    | None =>
        on_this (with_process {| kills := kills process;
                                 stdin := stdin process ++ [chunk];
                                 stdin_error := None |}) w
    end.

(** The buffer [sendMessage] builds for [message]. *)
Definition messageBuffer (message : JSValue) : Completion Buffer :=
  let jsonContent := JSON_stringify message in
  let messageLen := Z.of_nat (length jsonContent) in
  let messageBuffer := Buffer_alloc (messageLen + 4) in
  match writeUint32 messageBuffer messageLen 0 with
  | Normal written => Normal (Buffer_write written jsonContent 4)
  | Abrupt e => Abrupt e
  | Exhausted => Exhausted
  end.

Definition sendMessage (message : JSValue) : M World unit :=
  buffer <- lift (messageBuffer message) ;;
  streamWrite buffer.

(** [if (timeoutMs)]: [undefined] and [0] are falsy. *)
Definition truthy (timeoutMs : option Z) : bool :=
  match timeoutMs with
  | Some ms => negb (ms =? 0)
  | None => false
  end.

Definition new_promise : M World nat :=
  fun w => (on_promises (fun ps => ps ++ [Pending]) ;; ret (length (promises w))) w.

(** The executor of [new Promise]: an exception it throws rejects the
    promise. *)
Definition executor (p : nat) (body : M World unit) : M World unit :=
  fun w =>
    match body w with
    | (Abrupt e, w') => reject p e w'
    | r => r
    end.

Definition readMessage (timeoutMs : option Z) : M World nat :=
  p <- new_promise ;;
  executor p
    ((if truthy timeoutMs
      then setTimeout p ;;
           on_this (fun c => with_readQueue (_readQueue c ++ [ClearAndResolve p]) c)
      else on_this (fun c => with_readQueue (_readQueue c ++ [Resolve p]) c)) ;;
     processMessageQueue) ;;
  ret p.

(** The function given to [setTimeout] by [readMessage], for promise [p]. *)
Definition timeoutCallback (p : nat) : M World unit :=
  queue <- read (fun w => _readQueue (this w)) ;;
  let index := indexOf queue (Resolve p) in
  (if index >=? 0
   then on_this (with_readQueue (splice1 queue index))
   else ret tt) ;;
  reject p (StringValue "Timeout reached").

(** A timer fires only while it is armed, and then once. *)
Definition fireTimeout (p : nat) : M World unit :=
  fun w =>
    if existsb (Nat.eqb p) (timers w)
    then (clearTimeout p ;; timeoutCallback p) w
    else (Normal tt, w).

Definition disconnect : M World unit :=
  connected <- read (fun w => _connected (this w)) ;;
  if connected : bool then
    on_this (fun c => with_process {| kills := S (kills (_process c));
                                      stdin := stdin (_process c);
                                      stdin_error := stdin_error (_process c) |} c) ;;
    on_this (with_connected false)
  else ret tt.

(** The handlers the constructor registers. *)
Definition on_error : M World unit := on_this (with_connected false).

Definition on_close : M World unit := on_this (with_connected false).

Definition on_exit : M World unit := on_this (with_connected false).

Definition on_data (chunk : Buffer) : M World unit :=
  on_this (fun c => with_messageQueue (_messageQueue c ++ [chunk]) c) ;;
  processMessageQueue.

(** What can happen to a connection. *)
Inductive Event :=
| EvData (chunk : Buffer)
| EvRead (timeoutMs : option Z)
| EvTimeout (p : nat)
| EvSend (message : JSValue)
| EvDisconnect
| EvProcessError
| EvProcessClose
| EvProcessExit.

Definition handle (ev : Event) : M World unit :=
  match ev with
  | EvData chunk => on_data chunk
  | EvRead timeoutMs => readMessage timeoutMs ;; ret tt
  | EvTimeout p => fireTimeout p
  | EvSend message => sendMessage message
  | EvDisconnect => disconnect
  | EvProcessError => on_error
  | EvProcessClose => on_close
  | EvProcessExit => on_exit
  end.

(** A run keeps going after an exception, as a host with a handler for
    uncaught exceptions does; the completions are kept in order. *)
Fixpoint run (evs : list Event) (w : World) : list (Completion unit) * World :=
  match evs with
  | [] => ([], w)
  | ev :: evs' =>
      let (c, w') := handle ev w in
      let (cs, w'') := run evs' w' in
      (c :: cs, w'')
  end.

Definition fresh_process : ChildProcess :=
  {| kills := 0; stdin := []; stdin_error := None |}.

Definition initial (app_type : NativeAppType) : World :=
  {| this := NativeConnection_new fresh_process app_type;
     promises := []; timers := [] |}.

(** *** Worlds the methods lead to

    Names for the worlds that the properties below speak of. *)

(** The world after [callback(v)]. *)
Definition after_call (callback : Callback) (v : JSValue) (w : World) : World :=
  match callback with
  | Resolve p =>
      {| this := this w; promises := settle p (Fulfilled v) (promises w);
         timers := timers w |}
  | ClearAndResolve p =>
      {| this := this w; promises := settle p (Fulfilled v) (promises w);
         timers := filter (fun q => negb (Nat.eqb q p)) (timers w) |}
  end.

(** The head chunk was one frame: its value went to the oldest reader and
    the chunk left the queue. *)
Definition delivered (callback : Callback) (v : JSValue) (w : World) : World :=
  let w1 := after_call callback v w in
  {| this := with_messageQueue (tl (_messageQueue (this w)))
               (with_readQueue (tl (_readQueue (this w))) (this w));
     promises := promises w1;
     timers := timers w1 |}.

(** The head chunk ended inside its payload: what was there went to the
    oldest reader, and the empty slice past the end replaced the chunk. *)
Definition delivered_early (callback : Callback) (v : JSValue) (w : World) : World :=
  let w1 := after_call callback v w in
  {| this := with_messageQueue ([] :: tl (_messageQueue (this w)))
               (with_readQueue (tl (_readQueue (this w))) (this w));
     promises := promises w1;
     timers := timers w1 |}.

(** The oldest reader was shifted and nothing else happened. *)
Definition reader_dropped (w : World) : World :=
  {| this := with_readQueue (tl (_readQueue (this w))) (this w);
     promises := promises w; timers := timers w |}.

(** The head chunk held more than its frame: it left the queue whole, with
    the text after its header as the partial message. *)
Definition swallowed (buffer : Buffer) (messageLen : Z) (w : World) : World :=
  {| this :=
       with_messageQueue (tl (_messageQueue (this w)))
         (with_remainingMessageSize (messageLen - (len buffer - 4))
            (with_incompleteMessage (js_string (Buffer_toString_from buffer 4)) (this w)));
     promises := promises w;
     timers := timers w |}.

(** The callback [readMessage(timeoutMs)] pushes for its promise [p]. *)
Definition new_reader (timeoutMs : option Z) (p : nat) : Callback :=
  if truthy timeoutMs then ClearAndResolve p else Resolve p.

(** The world in which [readMessage(timeoutMs)] calls
    [processMessageQueue]. *)
Definition registered (timeoutMs : option Z) (w : World) : World :=
  let p := length (promises w) in
  {| this := with_readQueue (_readQueue (this w) ++ [new_reader timeoutMs p]) (this w);
     promises := promises w ++ [Pending];
     timers := if truthy timeoutMs then p :: timers w else timers w |}.

(** The world in which the [data] handler calls [processMessageQueue]. *)
Definition buffered (chunk : Buffer) (w : World) : World :=
  {| this := with_messageQueue (_messageQueue (this w) ++ [chunk]) (this w);
     promises := promises w; timers := timers w |}.

(** What holds of every world a new connection can reach: no partial frame
    is ever awaited, the queued callbacks belong to promises that exist,
    and an armed timer belongs to a promise whose own [resolve] is not in
    the queue. *)
Definition sane (w : World) : Prop :=
  _remainingMessageSize (this w) <= 0 /\
  (forall callback, In callback (_readQueue (this w)) ->
                    (promise_of callback < length (promises w))%nat) /\
  (forall p, In p (timers w) ->
             (p < length (promises w))%nat /\ ~ In (Resolve p) (_readQueue (this w))).

End Engine.

(** ** Manifest lookup ([NativeConnector.ts]) *)

Module ManifestSearchLocation.

Definition Firefox : Z := Z.shiftl 1 0.

Definition Chrome : Z := Z.shiftl 1 1.

Definition Chromium : Z := Z.shiftl 1 2.

Definition Vivaldi : Z := Z.shiftl 1 3.

Definition All : Z := 64 - 1.

End ManifestSearchLocation.

(** *** POSIX [path.join] *)

Definition slash : ascii := "/"%char.

(** The text between the slashes of a path. *)
Fixpoint segments (cs : list ascii) : list (list ascii) :=
  match cs with
  | [] => [[]]
  | c :: cs' =>
      if Ascii.eqb c slash then [] :: segments cs'
      else match segments cs' with
           | seg :: segs => (c :: seg) :: segs
           | [] => [[c]]
           end
  end.

Definition is_dot (seg : list ascii) : bool :=
  match seg with ["."%char] => true | _ => false end.

Definition is_dotdot (seg : list ascii) : bool :=
  match seg with ["."%char; "."%char] => true | _ => false end.

(** Resolution of [.] and [..]: [stack] holds the segments kept so far, the
    last one first. *)
Fixpoint resolve_segments (allowAboveRoot : bool) (stack segs : list (list ascii))
  : list (list ascii) :=
  match segs with
  | [] => rev stack
  | seg :: segs' =>
      match seg with
      | [] => resolve_segments allowAboveRoot stack segs'
      | _ :: _ =>
          if is_dot seg then resolve_segments allowAboveRoot stack segs'
          else if is_dotdot seg then
            match stack with
            | top :: below =>
                if is_dotdot top
                then resolve_segments allowAboveRoot
                       (if allowAboveRoot then seg :: stack else stack) segs'
                else resolve_segments allowAboveRoot below segs'
            | [] =>
                resolve_segments allowAboveRoot
                  (if allowAboveRoot then [seg] else []) segs'
            end
          else resolve_segments allowAboveRoot (seg :: stack) segs'
      end
  end.

Fixpoint join_segments (segs : list (list ascii)) : list ascii :=
  match segs with
  | [] => []
  | [seg] => seg
  | seg :: segs' => seg ++ slash :: join_segments segs'
  end.

Definition path_normalize (path : list ascii) : list ascii :=
  match path with
  | [] => ["."%char]
  | first :: _ =>
      let isAbsolute := Ascii.eqb first slash in
      let trailingSeparator := Ascii.eqb (last path " "%char) slash in
      let body := join_segments (resolve_segments (negb isAbsolute) [] (segments path)) in
      match body with
      | [] =>
          if isAbsolute then [slash]
          else if trailingSeparator then ["."%char; slash] else ["."%char]
      | _ :: _ =>
          let body := if trailingSeparator then body ++ [slash] else body in
          if isAbsolute then slash :: body else body
      end
  end.

(** [path.join(a, b)]: the arguments that are not empty, joined by a slash
    and normalized. *)
Definition path_join (a b : string) : string :=
  let a := list_ascii_of_string a in
  let b := list_ascii_of_string b in
  string_of_list_ascii
    (match a, b with
     | [], [] => ["."%char]
     | [], _ => path_normalize b
     | _, [] => path_normalize a
     | _, _ => path_normalize (a ++ slash :: b)
     end).

(** *** The host of the lookup *)

Record Stats := { isFile : bool }.

(** The platform, the environment and the file system.  [lstat] and
    [readFile] are [None] where the call rejects. *)
Record Host := {
  os_platform : string;
  env_HOME : option string;
  lstat : string -> option Stats;
  readFile : string -> option jsstring;
}.

(** [path.join(process.env.HOME, rel)]: a type error when [HOME] is not
    set, since [path.join] takes strings only. *)
Definition home_join (h : Host) (rel : string) : Completion string :=
  match env_HOME h with
  | Some home => Normal (path_join home rel)
  | None => Abrupt TypeError
  end.

Definition yield_ (c : Completion string) (t : NativeAppType)
  : Completion (string * NativeAppType) :=
  match c with
  | Normal path => Normal (path, t)
  | Abrupt e => Abrupt e
  | Exhausted => Exhausted
  end.

(** Truthiness of the result of [&]. *)
Definition enabled (search_location family : Z) : bool :=
  negb (Z.land search_location family =? 0).

(** The generator, as the list of what each [next()] completes with; an
    abrupt entry is an exception thrown from the generator's body when the
    iteration gets there. *)
Definition getManifestLocations (h : Host) (search_location : Z)
  : list (Completion (string * NativeAppType)) :=
  if String.eqb (os_platform h) "linux" then
    (if enabled search_location ManifestSearchLocation.Firefox
     then [Normal ("/usr/lib/mozilla/native-messaging-hosts/"%string, Firefox);
           yield_ (home_join h ".mozilla/native-messaging-hosts/") Firefox]
     else [])
    ++ (if enabled search_location ManifestSearchLocation.Chrome
        then [Normal ("/etc/opt/chrome/native-messaging-hosts"%string, Chrome)]
        else [])
    ++ (if enabled search_location ManifestSearchLocation.Chromium
        then [Normal ("/etc/chromium/native-messaging-hosts"%string, Chromium)]
        else [])
    ++ (if enabled search_location ManifestSearchLocation.Vivaldi
        then [yield_ (home_join h ".config/vivaldi/NativeMessagingHosts") Vivaldi]
        else [])
  else [].

(** The [for ... of] loop of [findManifest] over the locations still to
    come.  [None] is the [null] returned after the loop. *)
Fixpoint findManifest_loop (h : Host) (manifest_name : string)
  (locations : list (Completion (string * NativeAppType)))
  : Completion (option (string * NativeAppType)) :=
  match locations with
  | [] => Normal None
  | Normal (searchPath, searchLocation) :: rest =>
      let test_path := path_join searchPath (manifest_name ++ ".json") in
      match lstat h test_path with
      | Some stats =>
          if negb (isFile stats)
          then findManifest_loop h manifest_name rest
          else Normal (Some (test_path, searchLocation))
      | None => findManifest_loop h manifest_name rest
      end
  | Abrupt e :: _ => Abrupt e
  | Exhausted :: _ => Exhausted
  end.

Definition findManifest (h : Host) (manifest_name : string) (search_location : Z)
  : Completion (option (string * NativeAppType)) :=
  findManifest_loop h manifest_name (getManifestLocations h search_location).

(** The default value of the parameter [search_location] of [create]. *)
Definition scope_of (search_location : option Z) : Z :=
  match search_location with
  | Some s => s
  | None => ManifestSearchLocation.All
  end.

(** The path [findManifest] tests in a search directory. *)
Definition manifest_at (searchPath manifest_name : string) : string :=
  path_join searchPath (manifest_name ++ ".json").

(** [lstat] succeeds on [path] and reports a regular file. *)
Definition regular (h : Host) (path : string) : bool :=
  match lstat h path with
  | Some stats => isFile stats
  | None => false
  end.

Section Bootstrap.

Context `{RT : Runtime}.

Record NativeConnector := {
  _manifest : JSValue;
  _connector_app_type : NativeAppType;
}.

(** [NativeConnector.create].  Destructuring the [null] that [findManifest]
    returns is a type error, raised before the test [manifest_path === null];
    after a successful destructuring [manifest_path] is a string, and the
    string [readFile] resolves with is never [null] either, so neither
    [throw] guarded by those tests is reached. *)
Definition create (h : Host) (manifest_name : string) (search_location : option Z)
  : Completion NativeConnector :=
  let search_location := scope_of search_location in
  match findManifest h manifest_name search_location with
  | Normal None => Abrupt TypeError
  | Normal (Some (manifest_path, app_type)) =>
      match readFile h manifest_path with
      | None => Abrupt SystemError
      | Some manifest_content =>
          match JSON_parse manifest_content with
          | Some manifest =>
              Normal {| _manifest := manifest; _connector_app_type := app_type |}
          | None =>
              Abrupt (ErrorAbout "Manifest content was no valid JSON: " SyntaxError)
          end
      end
  | Abrupt e => Abrupt e
  | Exhausted => Exhausted
  end.

(** [connect()]: the connection made for the spawned process. *)
Definition connect (c : NativeConnector) : World :=
  initial (_connector_app_type c).

End Bootstrap.

(** ** A runtime to compute with

    An executable [Runtime] for concrete runs: little-endian, with the
    JSON values built from [null], booleans, integers, strings, arrays and
    objects.  Numbers are integers that JavaScript prints in plain decimal
    (a fraction or an exponent in the text is outside this fragment and is
    refused), and an object is the list of its members in the order of the
    text.  The properties of the engine are proved for every [Runtime]; this
    one only supplies inputs. *)

Module Json.

Inductive JValue :=
| JNull
| JBool (b : bool)
| JNumber (n : Z)
| JString (s : jsstring)
| JArray (items : list JValue)
| JObject (members : list (jsstring * JValue)).

Definition hex_digit (n : Z) : Z := if n <? 10 then 48 + n else 87 + n.

(** [\uXXXX], in lower case as [JSON.stringify] writes it. *)
Definition u_escape (u : Z) : jsstring :=
  [92; 117; hex_digit (Z.land (Z.shiftr u 12) 0xF); hex_digit (Z.land (Z.shiftr u 8) 0xF);
   hex_digit (Z.land (Z.shiftr u 4) 0xF); hex_digit (Z.land u 0xF)].

Definition quote_unit (u : Z) : jsstring :=
  if u =? 34 then [92; 34]
  else if u =? 92 then [92; 92]
  else if u =? 8 then [92; 98]
  else if u =? 12 then [92; 102]
  else if u =? 10 then [92; 110]
  else if u =? 13 then [92; 114]
  else if u =? 9 then [92; 116]
  else if u <? 32 then u_escape u
  else if is_high_surrogate u || is_low_surrogate u then u_escape u
  else [u].

(** The text between the quotes: a surrogate pair is kept, an unpaired
    surrogate is escaped. *)
Fixpoint quote_units (s : jsstring) : jsstring :=
  match s with
  | [] => []
  | u :: rest =>
      if is_high_surrogate u then
        match rest with
        | l :: rest' =>
            if is_low_surrogate l then u :: l :: quote_units rest'
            else quote_unit u ++ quote_units rest
        | [] => quote_unit u
        end
      else quote_unit u ++ quote_units rest
  end.

Definition quote (s : jsstring) : jsstring := 34 :: quote_units s ++ [34].

Definition decimal (n : Z) : jsstring :=
  units (DecimalString.NilZero.string_of_int (Z.to_int n)).

Fixpoint stringify (v : JValue) : jsstring :=
  match v with
  | JNull => units "null"
  | JBool true => units "true"
  | JBool false => units "false"
  | JNumber n => decimal n
  | JString s => quote s
  | JArray items =>
      91 :: (fix elements (l : list JValue) : jsstring :=
               match l with
               | [] => []
               | x :: l' =>
                   match l' with
                   | [] => stringify x
                   | _ :: _ => stringify x ++ 44 :: elements l'
                   end
               end) items ++ [93]
  | JObject members =>
      123 :: (fix pairs (l : list (jsstring * JValue)) : jsstring :=
                match l with
                | [] => []
                | (k, x) :: l' =>
                    match l' with
                    | [] => quote k ++ 58 :: stringify x
                    | _ :: _ => quote k ++ 58 :: stringify x ++ 44 :: pairs l'
                    end
                end) members ++ [125]
  end.

Definition is_ws (u : Z) : bool := (u =? 32) || (u =? 9) || (u =? 10) || (u =? 13).

Fixpoint skip_ws (s : jsstring) : jsstring :=
  match s with
  | u :: r => if is_ws u then skip_ws r else s
  | [] => []
  end.

Definition is_digit (u : Z) : bool := (48 <=? u) && (u <=? 57).

Definition hex_value (u : Z) : option Z :=
  if is_digit u then Some (u - 48)
  else if (97 <=? u) && (u <=? 102) then Some (u - 87)
  else if (65 <=? u) && (u <=? 70) then Some (u - 55)
  else None.

Definition unescape (e : Z) : option Z :=
  if e =? 34 then Some 34
  else if e =? 92 then Some 92
  else if e =? 47 then Some 47
  else if e =? 98 then Some 8
  else if e =? 102 then Some 12
  else if e =? 110 then Some 10
  else if e =? 114 then Some 13
  else if e =? 116 then Some 9
  else None.

Definition cons_unit (u : Z) (r : option (jsstring * jsstring)) : option (jsstring * jsstring) :=
  match r with
  | Some (s, rest) => Some (u :: s, rest)
  | None => None
  end.

(** A string after its opening quote: the text and what follows the
    closing quote. *)
Fixpoint parse_string_body (s : jsstring) : option (jsstring * jsstring) :=
  match s with
  | [] => None
  | u :: r =>
      if u =? 34 then Some ([], r)
      else if u <? 32 then None
      else if u =? 92 then
        match r with
        | e :: r' =>
            if e =? 117 then
              match r' with
              | a :: b :: c :: d :: r'' =>
                  match hex_value a, hex_value b, hex_value c, hex_value d with
                  | Some a, Some b, Some c, Some d =>
                      cons_unit (a * 4096 + b * 256 + c * 16 + d) (parse_string_body r'')
                  | _, _, _, _ => None
                  end
              | _ => None
              end
            else
              match unescape e with
              | Some x => cons_unit x (parse_string_body r')
              | None => None
              end
        | [] => None
        end
      else cons_unit u (parse_string_body r)
  end.

Fixpoint digits (acc : Z) (s : jsstring) : Z * jsstring :=
  match s with
  | u :: r => if is_digit u then digits (acc * 10 + (u - 48)) r else (acc, s)
  | [] => (acc, [])
  end.

(** An integer is complete when no fraction or exponent follows. *)
Definition integer_ends (n : Z) (r : jsstring) : option (Z * jsstring) :=
  match r with
  | c :: _ => if (c =? 46) || (c =? 101) || (c =? 69) then None else Some (n, r)
  | [] => Some (n, r)
  end.

Definition parse_natural (s : jsstring) : option (Z * jsstring) :=
  match s with
  | d :: r =>
      if d =? 48 then integer_ends 0 r
      else if is_digit d then let (n, r') := digits (d - 48) r in integer_ends n r'
      else None
  | [] => None
  end.

Definition parse_number (s : jsstring) : option (Z * jsstring) :=
  match s with
  | u :: r =>
      if u =? 45 then
        match parse_natural r with
        | Some (n, r') => Some (- n, r')
        | None => None
        end
      else parse_natural s
  | [] => None
  end.

Fixpoint strip_prefix (p s : jsstring) : option jsstring :=
  match p, s with
  | [], _ => Some s
  | a :: p', b :: s' => if a =? b then strip_prefix p' s' else None
  | _ :: _, [] => None
  end.

Definition literal (text : string) (v : JValue) (s : jsstring) : option (JValue * jsstring) :=
  match strip_prefix (units text) s with
  | Some r => Some (v, r)
  | None => None
  end.

Fixpoint parse_value (fuel : nat) (s : jsstring) : option (JValue * jsstring) :=
  match fuel with
  | O => None
  | S fuel' =>
      match skip_ws s with
      | [] => None
      | u :: r =>
          if u =? 34 then
            match parse_string_body r with
            | Some (str, r') => Some (JString str, r')
            | None => None
            end
          else if u =? 91 then
            match skip_ws r with
            | c :: r' =>
                if c =? 93 then Some (JArray [], r')
                else match parse_elements fuel' r with
                     | Some (items, r'') => Some (JArray items, r'')
                     | None => None
                     end
            | [] => None
            end
          else if u =? 123 then
            match skip_ws r with
            | c :: r' =>
                if c =? 125 then Some (JObject [], r')
                else match parse_members fuel' r with
                     | Some (members, r'') => Some (JObject members, r'')
                     | None => None
                     end
            | [] => None
            end
          else if u =? 110 then literal "null" JNull (u :: r)
          else if u =? 116 then literal "true" (JBool true) (u :: r)
          else if u =? 102 then literal "false" (JBool false) (u :: r)
          else
            match parse_number (u :: r) with
            | Some (n, r') => Some (JNumber n, r')
            | None => None
            end
      end
  end
with parse_elements (fuel : nat) (s : jsstring) : option (list JValue * jsstring) :=
  match fuel with
  | O => None
  | S fuel' =>
      match parse_value fuel' s with
      | Some (v, r) =>
          match skip_ws r with
          | c :: r' =>
              if c =? 44 then
                match parse_elements fuel' r' with
                | Some (vs, r'') => Some (v :: vs, r'')
                | None => None
                end
              else if c =? 93 then Some ([v], r')
              else None
          | [] => None
          end
      | None => None
      end
  end
with parse_members (fuel : nat) (s : jsstring)
  : option (list (jsstring * JValue) * jsstring) :=
  match fuel with
  | O => None
  | S fuel' =>
      match skip_ws s with
      | q :: r =>
          if q =? 34 then
            match parse_string_body r with
            | Some (key, r1) =>
                match skip_ws r1 with
                | colon :: r2 =>
                    if colon =? 58 then
                      match parse_value fuel' r2 with
                      | Some (v, r3) =>
                          match skip_ws r3 with
                          | c :: r4 =>
                              if c =? 44 then
                                match parse_members fuel' r4 with
                                | Some (ms, r5) => Some ((key, v) :: ms, r5)
                                | None => None
                                end
                              else if c =? 125 then Some ([(key, v)], r4)
                              else None
                          | [] => None
                          end
                      | None => None
                      end
                    else None
                | [] => None
                end
            | None => None
            end
          else None
      | [] => None
      end
  end.

(** [JSON.parse]: one value, with nothing but white space around it.  Two
    units of fuel for every code unit are enough for the nesting. *)
Definition parse (text : jsstring) : option JValue :=
  match parse_value (2 * length text + 2) text with
  | Some (v, r) => match skip_ws r with [] => Some v | _ :: _ => None end
  | None => None
  end.


End Json.

#[export] Instance node_le : Runtime := {|
  JSValue := Json.JValue;
  JSON_parse := Json.parse;
  JSON_stringify := Json.stringify;
  os_endianness := LE;
|}.

(** ** The wire format and scripted runs *)

Section Wire.

Context `{RT : Runtime}.

Definition uint32_bytes (value : Z) : list Z :=
  match os_endianness with
  | BE => rev (uint32_bytes_LE value)
  | LE => uint32_bytes_LE value
  end.

(** A frame of the wire format: the length of the payload as a uint32 in
    the host's byte order, then the payload. *)
Definition wire_frame (payload : list Z) : Buffer :=
  uint32_bytes (len payload) ++ payload.

(** What a consumer and a well-behaved peer do, one step at a time: the
    peer's frame arrives as one chunk, or the consumer asks for a message. *)
Inductive Action :=
| Recv (payload : list Z) (v : JSValue)
| Ask (timeoutMs : option Z).

Definition event_of (a : Action) : Event :=
  match a with
  | Recv payload _ => EvData (wire_frame payload)
  | Ask timeoutMs => EvRead timeoutMs
  end.

(** [payload] fits a uint32 length and is the JSON text of [v]. *)
Definition json_of (payload : list Z) (v : JSValue) : Prop :=
  len payload < 2 ^ 32 /\ JSON_parse (utf8_decode payload) = Some v.

Definition well_formed (a : Action) : Prop :=
  match a with
  | Recv payload v => json_of payload v
  | Ask _ => True
  end.

Fixpoint received (script : list Action) : list JSValue :=
  match script with
  | [] => []
  | Recv _ v :: script' => v :: received script'
  | Ask _ :: script' => received script'
  end.

Fixpoint payloads (script : list Action) : list (list Z) :=
  match script with
  | [] => []
  | Recv payload _ :: script' => payload :: payloads script'
  | Ask _ :: script' => payloads script'
  end.

Fixpoint asked (script : list Action) : nat :=
  match script with
  | [] => O
  | Recv _ _ :: script' => asked script'
  | Ask _ :: script' => S (asked script')
  end.

(** The world after [n] calls of [readMessage] and the arrival, frame by
    frame, of the payloads [ps] with values [vs]: the first [n] values are
    delivered, each to the promise of the same rank, the other frames are
    buffered and the other readers wait. *)
Definition fifo_state (w : World) (ps : list (list Z)) (vs : list JSValue) (n : nat)
  : Prop :=
  _remainingMessageSize (this w) <= 0 /\
  Forall2 json_of ps vs /\
  promises w = map Fulfilled (firstn n vs) ++ repeat Pending (n - length vs) /\
  _messageQueue (this w) = map wire_frame (skipn n ps) /\
  map promise_of (_readQueue (this w)) = seq (length vs) (n - length vs).

(** Text whose code units are all ASCII. *)
Definition ascii_text (s : jsstring) : Prop := Forall (fun u => 0 <= u < 128) s.

(** A value whose JSON text is ASCII, is read back by [JSON.parse], and is
    short enough for a uint32 length. *)
Definition sendable (v : JSValue) : Prop :=
  ascii_text (JSON_stringify v) /\
  len (JSON_stringify v) < 2 ^ 32 /\
  JSON_parse (JSON_stringify v) = Some v.

End Wire.

(** A Linux host whose only manifest is
    [/etc/opt/chrome/native-messaging-hosts/myapp.json], a regular file
    holding [content]. *)
Definition chrome_manifest_path : string :=
  "/etc/opt/chrome/native-messaging-hosts/myapp.json".

Definition chrome_host (content : jsstring) : Host :=
  {| os_platform := "linux";
     env_HOME := Some "/home/user"%string;
     lstat := fun path =>
       if String.eqb path chrome_manifest_path
       then Some {| isFile := true |} else None;
     readFile := fun path =>
       if String.eqb path chrome_manifest_path then Some content else None |}.


(** ** Sample inputs *)

(** The manifest [{ path: "/bin/myapp" }]. *)
Definition myapp_manifest : Json.JValue :=
  Json.JObject [(units "path", Json.JString (units "/bin/myapp"))].

(** The value [{ a: 1 }] and the eleven octets of its frame. *)
Definition value_a1 : Json.JValue := Json.JObject [(units "a", Json.JNumber 1)].

Definition frame_a1 : Buffer := [7; 0; 0; 0; 123; 34; 97; 34; 58; 49; 125].

(** The string of the single character U+00E9. *)
Definition e_acute : Json.JValue := Json.JString [233].

(** A new connection on which [readMessage()] was called once. *)
Definition one_reader : World := snd (readMessage (RT := node_le) None (initial Firefox)).

(** Two readers, three frames, then a third reader. *)
Definition sample_script : list (Action (RT := node_le)) :=
  [Ask None; Ask (Some 250);
   Recv (utf8_encode (Json.stringify (Json.JNumber 1))) (Json.JNumber 1);
   Recv (utf8_encode (Json.stringify value_a1)) value_a1;
   Recv (utf8_encode (Json.stringify Json.JNull)) Json.JNull;
   Ask None].

(** ** More worlds and hosts to speak of *)

Section MoreWorlds.

Context `{RT : Runtime}.

(** The world with [_connected] set to [connected]. *)
Definition marked (connected : bool) (w : World) : World :=
  {| this := with_connected connected (this w);
     promises := promises w; timers := timers w |}.

(** The world after [chunks] were written to the standard input of the
    process. *)
Definition sent (chunks : list Buffer) (w : World) : World :=
  {| this :=
       with_process {| kills := kills (_process (this w));
                       stdin := stdin (_process (this w)) ++ chunks;
                       stdin_error := stdin_error (_process (this w)) |} (this w);
     promises := promises w; timers := timers w |}.

(** The world after [chunks] were appended to [_messageQueue]. *)
Definition queued (chunks : list Buffer) (w : World) : World :=
  {| this := with_messageQueue (_messageQueue (this w) ++ chunks) (this w);
     promises := promises w; timers := timers w |}.

(** The octets [sendMessage] puts after the header for the JSON text
    [text]: the whole characters of its UTF-8 encoding that fit in as many
    octets as the text has code units, then zero octets up to that size. *)
Definition written_payload (text : jsstring) : list Z :=
  let fitted := take_fitting (utf8_chars text) (length text) in
  fitted ++ repeat 0 (length text - length fitted).

End MoreWorlds.

(** The bit of [ManifestSearchLocation] for a browser family. *)
Definition family_bit (t : NativeAppType) : Z :=
  match t with
  | Firefox => ManifestSearchLocation.Firefox
  | Chrome => ManifestSearchLocation.Chrome
  | Chromium => ManifestSearchLocation.Chromium
  | Vivaldi => ManifestSearchLocation.Vivaldi
  end.

(** Whether the scope [search_location] keeps an entry of the generator. *)
Definition in_scope (search_location : Z) (entry : Completion (string * NativeAppType))
  : bool :=
  match entry with
  | Normal (_, t) => enabled search_location (family_bit t)
  | _ => false
  end.

(** The host of [chrome_host] on another platform. *)
Definition darwin_host (content : jsstring) : Host :=
  {| os_platform := "darwin";
     env_HOME := Some "/Users/user"%string;
     lstat := lstat (chrome_host content);
     readFile := readFile (chrome_host content) |}.

(** The host of [chrome_host] without [HOME] in the environment. *)
Definition homeless_host (content : jsstring) : Host :=
  {| os_platform := "linux";
     env_HOME := None;
     lstat := lstat (chrome_host content);
     readFile := readFile (chrome_host content) |}.


(** A connection with two promises and one reader: the reader of the
    first promise was shifted for a frame that did not parse, the reader of
    the second is waiting. *)
Definition orphan_and_reader : World :=
  {| this := with_readQueue [Resolve 1] (NativeConnection_new fresh_process Firefox);
     promises := [Pending; Pending]; timers := [] |}.

(** A new connection that got a chunk of two octets while nobody was
    reading. *)
Definition short_chunk_buffered : World :=
  snd (on_data (RT := node_le) [7; 0] (initial Firefox)).

(** * Properties *)

(** ** Octets and frames *)

(** The four octets of a uint32 give the value back. *)
Lemma uint32_bytes_LE_value (v : Z) :
  0 <= v < 2 ^ 32 ->
  Z.land v 0xFF + Z.land (Z.shiftr v 8) 0xFF * 2 ^ 8
  + Z.land (Z.shiftr v 16) 0xFF * 2 ^ 16 + Z.land (Z.shiftr v 24) 0xFF * 2 ^ 24 = v.
Proof.
  intros Hv.
  change 0xFF with (Z.ones 8).
  rewrite !Z.land_ones, !Z.shiftr_div_pow2 by lia.
  change (2 ^ 8) with 256 in *. change (2 ^ 16) with 65536 in *.
  change (2 ^ 24) with 16777216 in *. change (2 ^ 32) with 4294967296 in *.
  pose proof (Z.div_mod v 256 ltac:(lia)).
  pose proof (Z.div_mod (v / 256) 256 ltac:(lia)).
  pose proof (Z.div_mod (v / 65536) 256 ltac:(lia)).
  assert (v / 256 / 256 = v / 65536) by (rewrite Z.div_div by lia; reflexivity).
  assert (v / 65536 / 256 = v / 16777216) by (rewrite Z.div_div by lia; reflexivity).
  assert (0 <= v / 16777216 < 256)
    by (split; [apply Z.div_pos; lia | apply Z.div_lt_upper_bound; lia]).
  rewrite (Z.mod_small (v / 16777216) 256) by lia.
  lia.
Qed.

Section WireFacts.
Context `{RT : Runtime}.

(** The header of a frame reads as the length of its payload, in either
    byte order. *)
Lemma readUint32_wire_frame (payload : list Z) :
  len payload < 2 ^ 32 ->
  readUint32 (wire_frame payload) 0 = Normal (len payload).
Proof.
  intros Hlen.
  assert (0 <= len payload < 2 ^ 32) as Hr by (unfold len in *; lia).
  pose proof (@uint32_bytes_LE_value _ Hr) as Hv.
  unfold readUint32, wire_frame, uint32_bytes.
  destruct os_endianness;
    cbn [rev uint32_bytes_LE app readUInt32BE readUInt32LE Z.to_nat skipn];
    f_equal; lia.
Qed.

Lemma toString_wire_frame (payload : list Z) :
  Buffer_toString (wire_frame payload) 4 (4 + len payload) = utf8_decode payload.
Proof.
  unfold Buffer_toString, wire_frame, uint32_bytes, len.
  replace (Z.to_nat (4 + Z.of_nat (length payload)) - Z.to_nat 4)%nat
    with (length payload) by lia.
  destruct os_endianness;
    cbn [rev uint32_bytes_LE app Z.to_nat Pos.to_nat Pos.iter_op Nat.add skipn];
    rewrite firstn_all; reflexivity.
Qed.

Lemma len_wire_frame (payload : list Z) : len (wire_frame payload) = len payload + 4.
Proof.
  unfold wire_frame, uint32_bytes, len.
  destruct os_endianness; cbn [rev uint32_bytes_LE app length]; lia.
Qed.

End WireFacts.

(** ** The loop of processMessageQueue *)

Section LoopFacts.
Context `{RT : Runtime}.

Lemma settle_length (p : nat) (s : PromiseState) (ps : list PromiseState) :
  length (settle p s ps) = length ps.
Proof.
  unfold settle.
  destruct (nth_error ps p) as [[| |]|] eqn:E; try reflexivity.
  assert (p < length ps)%nat by (apply nth_error_Some; congruence).
  rewrite length_app, length_firstn. cbn [length]. rewrite length_skipn. lia.
Qed.

(** [dispatchMessage], case by case. *)
Lemma dispatchMessage_eq (data : jsstring) (w : World) :
  dispatchMessage data w =
  match _readQueue (this w) with
  | [] =>
      match JSON_parse data with
      | Some _ => (Abrupt TypeError, w)
      | None => (Abrupt SyntaxError, w)
      end
  | callback :: rest =>
      let w1 := {| this := with_readQueue rest (this w);
                   promises := promises w; timers := timers w |} in
      match JSON_parse data with
      | Some v => call (Some callback) v w1
      | None => (Abrupt SyntaxError, w1)
      end
  end.
Proof.
  unfold dispatchMessage, readQueue_shift, parse, bind, ret, throw, on_this, modify, call.
  destruct (_readQueue (this w)); cbn; destruct (JSON_parse data); reflexivity.
Qed.

Lemma call_eq (callback : Callback) (v : JSValue) (w : World) :
  call (Some callback) v w = (Normal tt, after_call callback v w).
Proof. destruct callback; reflexivity. Qed.

Ltac monad_unfold :=
  unfold bind, ret, throw, lift, read, modify, on_this, on_promises, on_timers,
    messageQueue_shift, messageQueue_set_head in *.

Lemma skipn_suffix_refl {A} (l : list A) : exists k, l = skipn k l.
Proof. exists O. reflexivity. Qed.

Lemma skipn_suffix_tail {A} (x : A) (l : list A) : exists k, l = skipn k (x :: l).
Proof. exists 1%nat. reflexivity. Qed.

Lemma filter_incl' {A} (f : A -> bool) (l : list A) : incl (filter f l) l.
Proof. intros x Hx. apply filter_In in Hx. tauto. Qed.

Ltac leaf :=
  let Heq := fresh "Heq" in intros Heq; injection Heq as <- <-; cbn;
  repeat match goal with
         | |- _ /\ _ => split
         | |- _ <> Exhausted => discriminate
         | |- length (settle _ _ _) = _ => apply settle_length
         | |- incl (filter _ _) _ => apply filter_incl'
         | |- incl ?l ?l => apply incl_refl
         | |- exists k, ?l = skipn k ?l => apply skipn_suffix_refl
         | |- exists k, ?l = skipn k (_ :: ?l) => apply skipn_suffix_tail
         | |- ?x = ?x => reflexivity
         | |- Normal _ = Normal _ -> _ => intros _
         | |- Abrupt _ = Normal _ -> _ => discriminate
         | |- _ <> [] -> _ => let Hne := fresh in intros Hne
         | |- (_ < _)%nat => solve [cbn; lia | destruct_mq]
         | |- _ <= 0 -> _ => intros ?
         | |- _ <= 0 => lia
         end
with destruct_mq :=
  match goal with
  | Hne : ?mq <> [] |- _ => destruct mq; [congruence | cbn; lia]
  end.

(** One turn of the loop, whatever the chunk: it keeps the promises in
    number, arms no timer, removes readers from the front of the queue
    only, never makes [_remainingMessageSize] positive, and when it
    completes normally one of the two queues got shorter. *)
Lemma processChunk_facts (buffer : Buffer) (w w' : World) (c : Completion unit) :
  processChunk buffer w = (c, w') ->
  c <> Exhausted /\
  length (promises w') = length (promises w) /\
  incl (timers w') (timers w) /\
  (exists k, _readQueue (this w') = skipn k (_readQueue (this w))) /\
  (_remainingMessageSize (this w) <= 0 -> _remainingMessageSize (this w') <= 0) /\
  _process (this w') = _process (this w) /\
  _connected (this w') = _connected (this w) /\
  (c = Normal tt -> _messageQueue (this w) <> [] ->
   (length (_messageQueue (this w')) + length (_readQueue (this w'))
    < length (_messageQueue (this w)) + length (_readQueue (this w)))%nat).
Proof.
  destruct w as [[pr ty co mq rq inc rem] ps ts].
  unfold processChunk. monad_unfold. cbn.
  destruct (rem >? 0) eqn:Hrem.
  - assert (rem > 0) by (apply Z.gtb_lt in Hrem; lia).
    destruct (len buffer >=? rem) eqn:Hge.
    + rewrite dispatchMessage_eq. cbn.
      destruct rq as [|callback rest];
        destruct (JSON_parse _) eqn:Hparse; try rewrite call_eq;
        try destruct callback; cbn;
        destruct (len buffer >? rem); cbn; leaf.
    + leaf.
  - assert (rem <= 0) by (rewrite Z.gtb_ltb in Hrem; apply Z.ltb_ge in Hrem; lia).
    destruct (readUint32 buffer 0) as [messageLen|e|] eqn:Hread; cbn.
    + destruct (messageLen + 4 >=? len buffer) eqn:Hge.
      * rewrite dispatchMessage_eq. cbn.
        destruct rq as [|callback rest];
          destruct (JSON_parse _) eqn:Hparse; try rewrite call_eq;
          try destruct callback; cbn;
          destruct (messageLen + 4 >? len buffer); cbn; leaf.
      * assert (messageLen + 4 < len buffer)
          by (rewrite Z.geb_leb in Hge; apply Z.leb_gt in Hge; lia).
        leaf.
    + leaf.
    + exfalso. unfold readUint32, readUInt32BE, readUInt32LE in Hread.
      destruct os_endianness;
        destruct (skipn (Z.to_nat 0) buffer) as [|? [|? [|? [|? ?]]]]; discriminate.
Qed.

(** The same for the loop, which ends within the bound that
    [processMessageQueue] gives it. *)
Lemma processLoop_facts (fuel : nat) :
  forall (w w' : World) (c : Completion unit),
  processLoop fuel w = (c, w') ->
  length (promises w') = length (promises w) /\
  incl (timers w') (timers w) /\
  (exists k, _readQueue (this w') = skipn k (_readQueue (this w))) /\
  (_remainingMessageSize (this w) <= 0 -> _remainingMessageSize (this w') <= 0) /\
  _process (this w') = _process (this w) /\
  _connected (this w') = _connected (this w) /\
  ((length (_messageQueue (this w)) + length (_readQueue (this w)) <= fuel)%nat ->
   c <> Exhausted).
Proof.
  induction fuel as [|fuel IH]; intros w w' c Hrun.
  - cbn in Hrun.
    destruct (_messageQueue (this w)) as [|buffer mq] eqn:Hmq;
      [|destruct (_readQueue (this w)) as [|callback rq] eqn:Hrq];
      injection Hrun as <- <-;
      repeat split; rewrite ?Hrq;
      auto using incl_refl, skipn_suffix_refl;
      try discriminate; cbn; intros; lia.
  - cbn in Hrun.
    destruct (_messageQueue (this w)) as [|buffer mq] eqn:Hmq;
      [|destruct (_readQueue (this w)) as [|callback rq] eqn:Hrq];
      try (injection Hrun as <- <-;
           repeat split; rewrite ?Hrq;
           auto using incl_refl, skipn_suffix_refl; discriminate).
    unfold bind in Hrun.
    destruct (processChunk buffer w) as [c1 w1] eqn:Hchunk.
    apply processChunk_facts in Hchunk.
    destruct Hchunk as (Hex & Hlen & Hincl & [k Hk] & Hrem & Hproc & Hconn & Hdec).
    rewrite Hrq in Hk.
    destruct c1 as [[]|e|].
    + apply IH in Hrun.
      destruct Hrun as (Hlen' & Hincl' & [k' Hk'] & Hrem' & Hproc' & Hconn' & Hex').
      repeat split; try congruence; auto.
      * eapply incl_tran; eauto.
      * exists (k' + k)%nat. rewrite Hk', Hk. apply skipn_skipn.
      * intros Hfuel. apply Hex'.
        assert (_messageQueue (this w) <> []) as Hne by congruence.
        specialize (Hdec eq_refl Hne). rewrite Hmq, Hrq in Hdec. cbn in *. lia.
    + injection Hrun as <- <-.
      repeat split; try congruence; auto.
      exists k. exact Hk.
    + congruence.
Qed.

Lemma processMessageQueue_facts (w w' : World) (c : Completion unit) :
  processMessageQueue w = (c, w') ->
  c <> Exhausted /\
  length (promises w') = length (promises w) /\
  incl (timers w') (timers w) /\
  (exists k, _readQueue (this w') = skipn k (_readQueue (this w))) /\
  (_remainingMessageSize (this w) <= 0 -> _remainingMessageSize (this w') <= 0) /\
  _process (this w') = _process (this w) /\
  _connected (this w') = _connected (this w).
Proof.
  unfold processMessageQueue. intros Hrun.
  destruct (_readQueue (this w)) as [|callback rq] eqn:Hrq.
  { injection Hrun as <- <-. rewrite Hrq.
    repeat split; auto using incl_refl, skipn_suffix_refl; discriminate. }
  destruct (_messageQueue (this w)) as [|buffer mq] eqn:Hmq.
  { injection Hrun as <- <-. rewrite Hrq.
    repeat split; auto using incl_refl, skipn_suffix_refl; discriminate. }
  apply processLoop_facts in Hrun.
  destruct Hrun as (Hlen & Hincl & Hk & Hrem & Hproc & Hconn & Hex).
  rewrite Hrq, Hmq in *.
  repeat split; auto.
Qed.

(** X17 (the loop ends).  From any world the [while] loop of
    [processMessageQueue] ends, with a result or an exception: every turn
    shortens the queue of chunks or the queue of readers, so their lengths
    bound the number of turns. *)
Theorem processMessageQueue_terminates (w : World) :
  fst (processMessageQueue w) <> Exhausted.
Proof.
  destruct (processMessageQueue w) as [c w'] eqn:Hrun.
  apply processMessageQueue_facts in Hrun. apply Hrun.
Qed.

End LoopFacts.

(** ** Equations of the handlers *)

Section Dispatch.
Context `{RT : Runtime}.

Lemma readMessage_eq (timeoutMs : option Z) (w : World) :
  readMessage timeoutMs w =
  let p := length (promises w) in
  match processMessageQueue (registered timeoutMs w) with
  | (Normal _, w') => (Normal p, w')
  | (Abrupt e, w') =>
      (Normal p, {| this := this w';
                    promises := settle p (Rejected e) (promises w');
                    timers := timers w' |})
  | (Exhausted, w') => (Exhausted, w')
  end.
Proof.
  unfold readMessage, registered, new_reader, new_promise, executor, setTimeout,
    reject, bind, ret, on_this, on_promises, on_timers, modify.
  destruct (truthy timeoutMs); cbn;
    match goal with
    | |- context [processMessageQueue ?w0] =>
        destruct (processMessageQueue w0) as [[[]|e|] w']
    end; reflexivity.
Qed.

Lemma on_data_eq (chunk : Buffer) (w : World) :
  on_data chunk w = processMessageQueue (buffered chunk w).
Proof. reflexivity. Qed.

Lemma processMessageQueue_no_reader (w : World) :
  _readQueue (this w) = [] -> processMessageQueue w = (Normal tt, w).
Proof. intros Hrq. unfold processMessageQueue. rewrite Hrq. reflexivity. Qed.

Lemma processMessageQueue_no_chunk (w : World) :
  _messageQueue (this w) = [] -> processMessageQueue w = (Normal tt, w).
Proof.
  intros Hmq. unfold processMessageQueue. rewrite Hmq.
  destruct (_readQueue (this w)); reflexivity.
Qed.

Lemma processLoop_step (fuel : nat) (w : World) (buffer : Buffer) (more : list Buffer)
  (callback : Callback) (rest : list Callback) :
  _messageQueue (this w) = buffer :: more ->
  _readQueue (this w) = callback :: rest ->
  processLoop (S fuel) w = (processChunk buffer ;; processLoop fuel) w.
Proof. intros Hmq Hrq. cbn. rewrite Hmq, Hrq. reflexivity. Qed.

Lemma processMessageQueue_eq (w : World) (buffer : Buffer) (more : list Buffer)
  (callback : Callback) (rest : list Callback) :
  _messageQueue (this w) = buffer :: more ->
  _readQueue (this w) = callback :: rest ->
  processMessageQueue w
  = (processChunk buffer ;; processLoop (length more + length rest + 1)) w.
Proof.
  intros Hmq Hrq. unfold processMessageQueue. rewrite Hmq, Hrq.
  cbn [length]. replace (S (length more) + S (length rest))%nat
    with (S (length more + length rest + 1)) by lia.
  apply processLoop_step with (more := more) (callback := callback) (rest := rest); auto.
Qed.

Lemma processLoop_no_reader (fuel : nat) (w : World) :
  _readQueue (this w) = [] -> processLoop fuel w = (Normal tt, w).
Proof.
  intros Hrq. destruct fuel; cbn; rewrite Hrq;
    destruct (_messageQueue (this w)); reflexivity.
Qed.

Lemma processLoop_no_chunk (fuel : nat) (w : World) :
  _messageQueue (this w) = [] -> processLoop fuel w = (Normal tt, w).
Proof. intros Hmq. destruct fuel; cbn; rewrite Hmq; reflexivity. Qed.

(** A chunk that is exactly one frame, with no partial frame awaited: the
    payload is dispatched and the chunk leaves the queue. *)
Lemma processChunk_aligned (w : World) (payload : list Z) (callback : Callback)
  (rest : list Callback) :
  _remainingMessageSize (this w) <= 0 ->
  _readQueue (this w) = callback :: rest ->
  len payload < 2 ^ 32 ->
  processChunk (wire_frame payload) w =
  match JSON_parse (utf8_decode payload) with
  | Some v => (Normal tt, delivered callback v w)
  | None => (Abrupt SyntaxError, reader_dropped w)
  end.
Proof.
  intros Hrem Hrq Hlen.
  destruct w as [[pr ty co mq rq inc rem] ps ts]. cbn in Hrem, Hrq. subst rq.
  unfold processChunk, bind, read, lift. cbn.
  replace (rem >? 0) with false by (symmetry; rewrite Z.gtb_ltb; apply Z.ltb_ge; lia).
  rewrite (readUint32_wire_frame payload Hlen).
  rewrite len_wire_frame.
  replace (len payload + 4 >=? len payload + 4) with true
    by (symmetry; rewrite Z.geb_leb; apply Z.leb_refl).
  replace (len payload + 4 >? len payload + 4) with false
    by (symmetry; rewrite Z.gtb_ltb; apply Z.ltb_irrefl).
  rewrite toString_wire_frame, dispatchMessage_eq. cbn.
  destruct (JSON_parse (utf8_decode payload)) as [v|]; [|reflexivity].
  destruct callback; reflexivity.
Qed.

Lemma settle_pending (a b : list PromiseState) (s : PromiseState) :
  settle (length a) s (a ++ Pending :: b) = a ++ s :: b.
Proof.
  unfold settle.
  rewrite nth_error_app2 by lia. rewrite Nat.sub_diag. cbn [nth_error].
  rewrite firstn_app, firstn_all, Nat.sub_diag. cbn [firstn]. rewrite app_nil_r.
  change (S (length a)) with (1 + length a)%nat.
  rewrite <- skipn_skipn, skipn_app, skipn_all, Nat.sub_diag. reflexivity.
Qed.

(** C6, as amended (malformed payload).  When the payload of a completed
    frame fails [JSON.parse], no error is delivered through the queue of
    readers: the SyntaxError is thrown out of the framing step, after the
    reader the frame would have gone to was shifted off the queue and
    before any reader is called.  If the frame completes on arrival, the
    exception leaves the [data] handler and no promise is settled; if the
    frame was buffered and a call of [readMessage] reaches it, the call
    returns its promise already rejected with the SyntaxError. *)
Theorem malformed_payload_throws (w : World) (payload : list Z)
  (callback : Callback) (rest : list Callback) (timeoutMs : option Z) :
  _remainingMessageSize (this w) <= 0 ->
  len payload < 2 ^ 32 ->
  JSON_parse (utf8_decode payload) = None ->
  (* the frame completes on arrival, with [callback] the oldest reader *)
  (_readQueue (this w) = callback :: rest -> _messageQueue (this w) = [] ->
   let w' := snd (on_data (wire_frame payload) w) in
   fst (on_data (wire_frame payload) w) = Abrupt SyntaxError /\
   _readQueue (this w') = rest /\
   promises w' = promises w /\
   timers w' = timers w) /\
  (* the frame is buffered, and the next call of [readMessage] is its reader *)
  (forall more, _readQueue (this w) = [] ->
   _messageQueue (this w) = wire_frame payload :: more ->
   let p := length (promises w) in
   let w' := snd (readMessage timeoutMs w) in
   fst (readMessage timeoutMs w) = Normal p /\
   _readQueue (this w') = [] /\
   promises w' = promises w ++ [Rejected SyntaxError]).
Proof.
  intros Hrem Hlen Hparse. split.
  - intros Hrq Hmq.
    rewrite on_data_eq.
    erewrite processMessageQueue_eq
      by (cbn; rewrite ?Hmq, ?Hrq; reflexivity).
    unfold bind.
    erewrite processChunk_aligned by (cbn; eauto).
    rewrite Hparse. cbn. rewrite Hrq. auto.
  - intros more Hrq Hmq.
    rewrite readMessage_eq.
    erewrite processMessageQueue_eq
      by (cbn; rewrite ?Hmq, ?Hrq; reflexivity).
    unfold bind.
    erewrite processChunk_aligned by (cbn; eauto; rewrite Hrq; reflexivity).
    rewrite Hparse. cbn. rewrite Hrq.
    rewrite (settle_pending (promises w) []). auto.
Qed.

End Dispatch.

(** ** The three cases of a fresh chunk *)

Section FreshFrame.
Context `{RT : Runtime}.

Lemma readUint32_short (buffer : Buffer) :
  len buffer < 4 -> readUint32 buffer 0 = Abrupt RangeError.
Proof.
  unfold len, readUint32, readUInt32BE, readUInt32LE. intros Hlen.
  destruct os_endianness; destruct buffer as [|? [|? [|? [|? ?]]]];
    cbn in *; try reflexivity; lia.
Qed.

(** A chunk that ends inside the header. *)
Lemma processChunk_header_split (w : World) (buffer : Buffer) :
  _remainingMessageSize (this w) <= 0 ->
  len buffer < 4 ->
  processChunk buffer w = (Abrupt RangeError, w).
Proof.
  intros Hrem Hlen.
  unfold processChunk, bind, read, lift.
  replace (_remainingMessageSize (this w) >? 0) with false
    by (symmetry; rewrite Z.gtb_ltb; apply Z.ltb_ge; lia).
  rewrite (readUint32_short _ Hlen). reflexivity.
Qed.

(** A chunk that holds a whole frame and more: nothing is dispatched, the
    chunk leaves the queue, and the text after the header becomes the
    partial message with a negative count of missing octets. *)
Lemma processChunk_surplus (w : World) (buffer : Buffer) (messageLen : Z) :
  _remainingMessageSize (this w) <= 0 ->
  readUint32 buffer 0 = Normal messageLen ->
  messageLen + 4 < len buffer ->
  processChunk buffer w = (Normal tt, swallowed buffer messageLen w).
Proof.
  intros Hrem Hread Hlong.
  unfold processChunk, bind, read, lift.
  replace (_remainingMessageSize (this w) >? 0) with false
    by (symmetry; rewrite Z.gtb_ltb; apply Z.ltb_ge; lia).
  rewrite Hread.
  replace (messageLen + 4 >=? len buffer) with false
    by (symmetry; rewrite Z.geb_leb; apply Z.leb_gt; lia).
  destruct w as [[pr ty co mq rq inc rem] ps ts]. reflexivity.
Qed.

(** A chunk that ends inside the payload: the octets present are
    dispatched at once as if they were the whole payload. *)
Lemma processChunk_short (w : World) (buffer : Buffer) (messageLen : Z)
  (callback : Callback) (rest : list Callback) :
  _remainingMessageSize (this w) <= 0 ->
  readUint32 buffer 0 = Normal messageLen ->
  len buffer < messageLen + 4 ->
  _readQueue (this w) = callback :: rest ->
  processChunk buffer w =
  match JSON_parse (Buffer_toString buffer 4 (4 + messageLen)) with
  | Some v => (Normal tt, delivered_early callback v w)
  | None => (Abrupt SyntaxError, reader_dropped w)
  end.
Proof.
  intros Hrem Hread Hshort Hrq.
  unfold processChunk, bind, read, lift.
  replace (_remainingMessageSize (this w) >? 0) with false
    by (symmetry; rewrite Z.gtb_ltb; apply Z.ltb_ge; lia).
  rewrite Hread.
  replace (messageLen + 4 >=? len buffer) with true
    by (symmetry; rewrite Z.geb_leb; apply Z.leb_le; lia).
  replace (messageLen + 4 >? len buffer) with true
    by (symmetry; rewrite Z.gtb_ltb; apply Z.ltb_lt; lia).
  assert (Buffer_slice buffer (messageLen + 4) = []) as Hslice
    by (unfold Buffer_slice, len in *; apply skipn_all2; lia).
  rewrite Hslice, dispatchMessage_eq, Hrq.
  unfold delivered_early, reader_dropped. rewrite Hrq.
  destruct (JSON_parse (Buffer_toString buffer 4 (4 + messageLen))) as [v|];
    [|reflexivity].
  destruct callback; reflexivity.
Qed.

End FreshFrame.

(** ** First in, first out *)

Section Fifo.
Context `{RT : Runtime}.

Lemma Forall2_at {A B} {R : A -> B -> Prop} {l : list A} {l' : list B} :
  Forall2 R l l' ->
  forall n, (n < length l)%nat ->
  exists a b, skipn n l = a :: skipn (S n) l /\ R a b /\
              firstn (S n) l' = firstn n l' ++ [b].
Proof.
  induction 1 as [|a b l l' Hab Hrest IH]; intros n Hn; [cbn in Hn; lia|].
  destruct n as [|n].
  - exists a, b. auto.
  - cbn in Hn. destruct (IH n ltac:(lia)) as (a' & b' & Hs & Hr & Hf).
    exists a', b'. split; [exact Hs|]. split; [exact Hr|].
    change (firstn (S (S n)) (b :: l')) with (b :: firstn (S n) l').
    rewrite Hf. reflexivity.
Qed.

Lemma promise_of_after_call (callback : Callback) (v : JSValue) (w : World) :
  promises (after_call callback v w)
  = settle (promise_of callback) (Fulfilled v) (promises w).
Proof. destruct callback; reflexivity. Qed.

Lemma after_call_this (callback : Callback) (v : JSValue) (w : World) :
  this (after_call callback v w) = this w.
Proof. destruct callback; reflexivity. Qed.

Lemma fifo_promises_length (vs : list JSValue) (n : nat) :
  length (map Fulfilled (firstn n vs) ++ repeat Pending (n - length vs)) = n.
Proof. rewrite length_app, length_map, length_firstn, repeat_length. lia. Qed.

Lemma repeat_snoc {A} (x : A) (k : nat) : repeat x k ++ [x] = repeat x (S k).
Proof. induction k as [|k IH]; cbn; [reflexivity|]. rewrite IH. reflexivity. Qed.

(** A frame arrives in a world of the first-in, first-out shape. *)
Lemma fifo_recv (w : World) (ps : list (list Z)) (vs : list JSValue) (n : nat)
  (payload : list Z) (v : JSValue) :
  fifo_state w ps vs n ->
  json_of payload v ->
  fst (on_data (wire_frame payload) w) = Normal tt /\
  fifo_state (snd (on_data (wire_frame payload) w)) (ps ++ [payload]) (vs ++ [v]) n.
Proof.
  intros (Hrem & Hjson & Hproms & Hmq & Hrq) Hpv.
  pose proof (Forall2_length Hjson) as Hlen.
  assert (Forall2 json_of (ps ++ [payload]) (vs ++ [v])) as Hjson'
    by (apply Forall2_app; auto).
  rewrite on_data_eq.
  destruct (Nat.le_gt_cases n (length vs)) as [Hle|Hgt].
  - (* no reader is waiting: the frame is buffered *)
    replace (n - length vs)%nat with O in Hrq, Hproms by lia.
    destruct (_readQueue (this w)) as [|? ?] eqn:Hq; [|discriminate].
    rewrite processMessageQueue_no_reader by exact Hq.
    split; [reflexivity|].
    unfold fifo_state, buffered; cbn [fst snd this promises _remainingMessageSize
      _messageQueue _readQueue with_messageQueue].
    rewrite Hq, Hmq, Hproms, length_app. cbn [length].
    replace (n - (length vs + 1))%nat with O by lia.
    rewrite firstn_app, skipn_app.
    replace (n - length vs)%nat with O by lia.
    replace (n - length ps)%nat with O by lia.
    cbn [firstn skipn repeat seq map]. rewrite !app_nil_r, map_app.
    repeat split; auto.
  - (* the oldest reader takes the frame *)
    destruct (n - length vs)%nat as [|k] eqn:Hk; [lia|].
    cbn [seq] in Hrq.
    destruct (_readQueue (this w)) as [|callback rest] eqn:Hq; [discriminate|].
    cbn [map] in Hrq. injection Hrq as Hcb Hrest.
    rewrite skipn_all2 in Hmq by lia. cbn [map] in Hmq.
    erewrite processMessageQueue_eq by (cbn; rewrite ?Hmq, ?Hq; reflexivity).
    unfold bind.
    erewrite processChunk_aligned by (cbn; eauto; apply Hpv).
    destruct Hpv as [Hlenp Hparse]. rewrite Hparse.
    rewrite processLoop_no_chunk by (cbn; rewrite Hmq; reflexivity).
    split; [reflexivity|].
    unfold fifo_state, delivered, buffered.
    cbn [fst snd this promises _remainingMessageSize _messageQueue _readQueue
           with_messageQueue with_readQueue].
    rewrite promise_of_after_call. cbn [promises].
    rewrite Hq, Hmq, Hproms, Hcb. cbn [tl app].
    rewrite firstn_all2 by lia.
    rewrite firstn_all2 by (rewrite length_app; cbn; lia).
    rewrite length_app. cbn [length].
    replace (n - (length vs + 1))%nat with k by lia.
    rewrite skipn_all2 by (rewrite length_app; cbn; lia).
    cbn [repeat].
    rewrite <- (length_map Fulfilled vs) at 1.
    rewrite settle_pending, map_app. cbn [map].
    rewrite <- app_assoc. cbn [app].
    replace (length vs + 1)%nat with (S (length vs)) by lia.
    repeat split; auto.
Qed.

(** [readMessage] is called in a world of the first-in, first-out shape:
    the promise it returns is the next in rank. *)
Lemma fifo_ask (w : World) (ps : list (list Z)) (vs : list JSValue) (n : nat)
  (timeoutMs : option Z) :
  fifo_state w ps vs n ->
  fst (readMessage timeoutMs w) = Normal n /\
  fifo_state (snd (readMessage timeoutMs w)) ps vs (S n).
Proof.
  intros (Hrem & Hjson & Hproms & Hmq & Hrq).
  pose proof (Forall2_length Hjson) as Hlen.
  assert (length (promises w) = n) as Hn
    by (rewrite Hproms; apply fifo_promises_length).
  assert (promise_of (new_reader timeoutMs n) = n) as Hnew
    by (unfold new_reader; destruct (truthy timeoutMs); reflexivity).
  rewrite readMessage_eq. cbn zeta. rewrite Hn.
  destruct (Nat.le_gt_cases (length vs) n) as [Hle|Hgt].
  - (* nothing is buffered: the reader waits *)
    rewrite skipn_all2 in Hmq by lia. cbn [map] in Hmq.
    rewrite processMessageQueue_no_chunk by exact Hmq.
    split; [reflexivity|].
    unfold fifo_state, registered.
    cbn [fst snd this promises _remainingMessageSize _messageQueue _readQueue
           with_readQueue].
    rewrite Hn, Hmq, Hproms, map_app, Hrq. cbn [map]. rewrite Hnew.
    rewrite !firstn_all2 by lia.
    rewrite skipn_all2 by lia.
    replace (S n - length vs)%nat with (S (n - length vs)) by lia.
    rewrite <- repeat_snoc, app_assoc, seq_S.
    replace (length vs + (n - length vs))%nat with n by lia.
    repeat split; auto.
  - (* a frame is buffered: the new reader takes it at once *)
    replace (n - length vs)%nat with O in Hrq, Hproms by lia.
    destruct (_readQueue (this w)) as [|? ?] eqn:Hq; [|discriminate].
    destruct (Forall2_at Hjson n ltac:(lia)) as (payload & v & Hskip & Hpv & Hfirst).
    rewrite Hskip in Hmq. cbn [map] in Hmq.
    erewrite processMessageQueue_eq
      by (unfold registered; cbn; rewrite ?Hmq, ?Hq; reflexivity).
    unfold bind.
    erewrite processChunk_aligned
      by (unfold registered; cbn; rewrite ?Hq; first [exact Hrem | apply Hpv | reflexivity]).
    destruct Hpv as [Hlenp Hparse]. rewrite Hparse.
    rewrite processLoop_no_reader by (unfold registered; cbn; rewrite Hq; reflexivity).
    split; [reflexivity|].
    unfold fifo_state, delivered, registered.
    cbn [fst snd this promises _remainingMessageSize _messageQueue _readQueue
           with_messageQueue with_readQueue].
    rewrite promise_of_after_call. cbn [promises].
    rewrite Hn, Hnew, Hq, Hmq, Hproms. cbn [tl app repeat].
    replace (S n - length vs)%nat with O by lia.
    cbn [repeat seq map]. rewrite !app_nil_r.
    rewrite Hfirst, map_app. cbn [map].
    assert (length (map Fulfilled (firstn n vs)) = n) as Hn'
        by (rewrite length_map, length_firstn; lia).
    rewrite <- Hn' at 1. rewrite settle_pending.
    repeat split; auto.
Qed.

Lemma fifo_run (script : list Action) :
  forall (w : World) (ps : list (list Z)) (vs : list JSValue) (n : nat),
  fifo_state w ps vs n ->
  Forall well_formed script ->
  fst (run (map event_of script) w) = repeat (Normal tt) (length script) /\
  fifo_state (snd (run (map event_of script) w))
    (ps ++ payloads script) (vs ++ received script) (n + asked script).
Proof.
  induction script as [|a script IH]; intros w ps vs n Hstate Hscript.
  - cbn. rewrite !app_nil_r, Nat.add_0_r. auto.
  - inversion Hscript as [|? ? Ha Hrest]; subst.
    cbn [map run length repeat].
    destruct a as [payload v|timeoutMs]; cbn [event_of handle payloads received asked].
    + destruct (fifo_recv w ps vs n payload v Hstate Ha) as [Hc Hstate'].
      destruct (on_data (wire_frame payload) w) as [c w'].
      cbn [fst snd] in Hc, Hstate'. subst c.
      destruct (IH _ _ _ _ Hstate' Hrest) as [Hcs Hfinal].
      destruct (run (map event_of script) w') as [cs w''].
      cbn [fst snd] in *. subst cs.
      rewrite <- !app_assoc in Hfinal. auto.
    + destruct (fifo_ask w ps vs n timeoutMs Hstate) as [Hc Hstate'].
      unfold bind, ret.
      destruct (readMessage timeoutMs w) as [c w'].
      cbn [fst snd] in Hc, Hstate'. subst c.
      destruct (IH _ _ _ _ Hstate' Hrest) as [Hcs Hfinal].
      destruct (run (map event_of script) w') as [cs w''].
      cbn [fst snd] in *. subst cs.
      replace (n + S (asked script))%nat with (S n + asked script)%nat by lia.
      auto.
Qed.

Lemma initial_fifo_state (app_type : NativeAppType) :
  fifo_state (initial app_type) [] [] 0.
Proof. unfold fifo_state. cbn. repeat split; auto; lia. Qed.

(** X22 (reads and frames pair up).  On a new connection on which
    [readMessage] is called without a timeout that fires and frames of JSON
    text arrive, each as its own chunk, in any interleaving, every event
    completes normally and the promise of the N-th call of [readMessage] is
    fulfilled with the value of the N-th frame; the readers still waiting
    are the later ones, in the order of their calls, and the frames not yet
    asked for stay buffered in the order of their arrival. *)
Theorem reads_and_frames_pair_up (script : list Action) (app_type : NativeAppType) :
  Forall well_formed script ->
  let result := run (map event_of script) (initial app_type) in
  let w := snd result in
  fst result = repeat (Normal tt) (length script) /\
  promises w
  = map Fulfilled (firstn (asked script) (received script))
    ++ repeat Pending (asked script - length (received script)) /\
  map promise_of (_readQueue (this w))
  = seq (length (received script)) (asked script - length (received script)) /\
  _messageQueue (this w) = map wire_frame (skipn (asked script) (payloads script)).
Proof.
  intros Hscript.
  destruct (fifo_run script _ _ _ _ (initial_fifo_state app_type) Hscript)
    as [Hcs (_ & _ & Hproms & Hmq & Hrq)].
  cbn [app Nat.add] in *. auto.
Qed.

End Fifo.

(** ** Reachable worlds *)

Section Reachable.
Context `{RT : Runtime}.

Lemma sane_shrink {w w' : World} :
  sane w ->
  _remainingMessageSize (this w') <= 0 ->
  (length (promises w) <= length (promises w'))%nat ->
  incl (timers w') (timers w) ->
  incl (_readQueue (this w')) (_readQueue (this w)) ->
  sane w'.
Proof.
  intros (Hrem & Hrq & Hts) Hrem' Hlen Hincl Hq.
  split; [exact Hrem'|]. split.
  - intros callback Hin. apply Hq, Hrq in Hin. lia.
  - intros p Hin. apply Hincl, Hts in Hin. destruct Hin as [Hlt Hnot].
    split; [lia|]. intros Hin. apply Hnot, Hq, Hin.
Qed.

Lemma skipn_incl {A} (k : nat) (l : list A) : incl (skipn k l) l.
Proof.
  intros x Hin. rewrite <- (firstn_skipn k l). apply in_or_app. right. exact Hin.
Qed.

Lemma processMessageQueue_sane {w : World} :
  sane w -> sane (snd (processMessageQueue w)).
Proof.
  intros Hsane.
  destruct (processMessageQueue w) as [c w'] eqn:Hrun.
  apply processMessageQueue_facts in Hrun.
  destruct Hrun as (_ & Hlen & Hincl & [k Hk] & Hrem & _).
  apply (sane_shrink Hsane); cbn [snd].
  - apply Hrem, Hsane.
  - lia.
  - exact Hincl.
  - rewrite Hk. apply skipn_incl.
Qed.

Lemma registered_sane (timeoutMs : option Z) {w : World} :
  sane w -> sane (registered timeoutMs w).
Proof.
  intros (Hrem & Hrq & Hts).
  unfold sane, registered, new_reader.
  cbn [this promises timers _remainingMessageSize _readQueue with_readQueue].
  rewrite length_app. cbn [length].
  split; [exact Hrem|]. split.
  - intros callback Hin. apply in_app_or in Hin. destruct Hin as [Hin|[<-|[]]].
    + apply Hrq in Hin. lia.
    + destruct (truthy timeoutMs); cbn; lia.
  - intros p Hin.
    assert (~ In (Resolve (length (promises w))) (_readQueue (this w))) as Hfresh.
    { intros Hold. apply Hrq in Hold. cbn in Hold. lia. }
    destruct (truthy timeoutMs).
    + destruct Hin as [<-|Hin].
      * split; [lia|]. intros Hq. apply in_app_or in Hq.
        destruct Hq as [Hq|[Hq|[]]]; [auto|discriminate].
      * apply Hts in Hin. destruct Hin as [Hlt Hnot]. split; [lia|].
        intros Hq. apply in_app_or in Hq.
        destruct Hq as [Hq|[Hq|[]]]; [auto|discriminate].
    + apply Hts in Hin. destruct Hin as [Hlt Hnot]. split; [lia|].
      intros Hq. apply in_app_or in Hq.
      destruct Hq as [Hq|[Hq|[]]]; [auto|].
      injection Hq as Hq. lia.
Qed.

Lemma Callback_eqb_eq (a b : Callback) : Callback_eqb a b = true <-> a = b.
Proof.
  destruct a as [p|p], b as [q|q]; cbn; rewrite ?Nat.eqb_eq;
    split; intros H; try discriminate; congruence.
Qed.

Lemma indexOf_absent (q : list Callback) (x : Callback) :
  ~ In x q -> indexOf q x = -1.
Proof.
  induction q as [|y q IH]; intros Hnot; [reflexivity|].
  cbn [indexOf].
  destruct (Callback_eqb y x) eqn:Heq.
  - exfalso. apply Hnot. left. apply Callback_eqb_eq. exact Heq.
  - rewrite IH by (intros Hin; apply Hnot; right; exact Hin). reflexivity.
Qed.

Lemma existsb_eqb_In (p : nat) (l : list nat) :
  existsb (Nat.eqb p) l = true <-> In p l.
Proof.
  rewrite existsb_exists. split.
  - intros (q & Hin & Heq). apply Nat.eqb_eq in Heq. subst. exact Hin.
  - intros Hin. exists p. split; [exact Hin|apply Nat.eqb_refl].
Qed.

(** In a sane world a timer that fires rejects its promise and leaves the
    queue of readers as it is: the queue holds the arrow function, and
    [indexOf(resolve)] looks for another object. *)
Lemma fireTimeout_sane_eq (p : nat) {w : World} :
  sane w ->
  fireTimeout p w =
  (Normal tt,
   if existsb (Nat.eqb p) (timers w)
   then {| this := this w;
           promises := settle p (Rejected (StringValue "Timeout reached")) (promises w);
           timers := filter (fun q => negb (Nat.eqb q p)) (timers w) |}
   else w).
Proof.
  intros (_ & _ & Hts).
  unfold fireTimeout.
  destruct (existsb (Nat.eqb p) (timers w)) eqn:Harmed; [|reflexivity].
  apply existsb_eqb_In, Hts in Harmed. destruct Harmed as [_ Hnot].
  unfold bind, clearTimeout, timeoutCallback, on_timers, on_this, reject, on_promises,
    modify, read, bind, ret. cbn.
  rewrite (indexOf_absent _ _ Hnot). cbn. reflexivity.
Qed.

Lemma streamWrite_facts (chunk : Buffer) (w : World) :
  let w' := snd (streamWrite chunk w) in
  fst (streamWrite chunk w) <> Exhausted /\
  _remainingMessageSize (this w') = _remainingMessageSize (this w) /\
  _readQueue (this w') = _readQueue (this w) /\
  _messageQueue (this w') = _messageQueue (this w) /\
  promises w' = promises w /\ timers w' = timers w.
Proof.
  unfold streamWrite.
  destruct (stdin_error (_process (this w))); cbn; repeat split; discriminate.
Qed.

Lemma messageBuffer_not_exhausted (message : JSValue) :
  messageBuffer message <> Exhausted.
Proof.
  unfold messageBuffer, writeUint32, writeUInt32BE, writeUInt32LE.
  destruct os_endianness;
    match goal with
    | |- context [if ?b then _ else _] => destruct b
    end; discriminate.
Qed.

Lemma readMessage_sane (timeoutMs : option Z) {w : World} :
  sane w ->
  sane (snd (readMessage timeoutMs w)) /\ fst (readMessage timeoutMs w) <> Exhausted.
Proof.
  intros Hsane. rewrite readMessage_eq. cbn zeta.
  pose proof (processMessageQueue_sane (registered_sane timeoutMs Hsane)) as Hp.
  destruct (processMessageQueue (registered timeoutMs w)) as [c w'] eqn:Hrun.
  apply processMessageQueue_facts in Hrun.
  destruct Hrun as (Hex & Hlen & _).
  cbn [snd] in Hp.
  destruct c as [[]|e|]; cbn [fst snd]; try congruence.
  - split; [exact Hp|discriminate].
  - split; [|discriminate].
    apply (sane_shrink Hp); cbn; try apply incl_refl;
      [apply Hp | rewrite settle_length; lia].
Qed.

(** Every handler keeps a world sane and ends. *)
Lemma handle_sane (ev : Event) {w : World} :
  sane w -> sane (snd (handle ev w)) /\ fst (handle ev w) <> Exhausted.
Proof.
  intros Hsane.
  destruct ev as [chunk|timeoutMs|p|message| | | |]; cbn [handle].
  - rewrite on_data_eq.
    assert (sane (buffered chunk w)) as Hb
      by (apply (sane_shrink Hsane); cbn; try apply incl_refl; try lia; apply Hsane).
    split; [apply processMessageQueue_sane, Hb|].
    destruct (processMessageQueue (buffered chunk w)) as [c w'] eqn:Hrun.
    apply processMessageQueue_facts in Hrun. apply Hrun.
  - destruct (readMessage_sane timeoutMs Hsane) as [Hw Hc].
    unfold bind, ret.
    destruct (readMessage timeoutMs w) as [[q|e|] w']; cbn [fst snd] in *;
      (split; [exact Hw|congruence]).
  - rewrite (fireTimeout_sane_eq p Hsane). cbn [fst snd].
    split; [|discriminate].
    destruct (existsb (Nat.eqb p) (timers w)); [|exact Hsane].
    apply (sane_shrink Hsane); cbn;
      [apply Hsane | rewrite settle_length; lia | apply filter_incl' | apply incl_refl].
  - unfold sendMessage, bind, lift.
    pose proof (messageBuffer_not_exhausted message) as Hmb.
    destruct (messageBuffer message) as [buffer|e|]; [| |congruence].
    + destruct (streamWrite_facts buffer w) as (Hex & Hrem & Hq & _ & Hps & Hts).
      destruct (streamWrite buffer w) as [c w'] eqn:Hw. cbn [fst snd] in *.
      destruct c as [[]|e|]; cbn [fst snd]; try congruence;
        (split; [|discriminate]);
        apply (sane_shrink Hsane);
        rewrite ?Hrem, ?Hq, ?Hps, ?Hts; try apply incl_refl; try lia; apply Hsane.
    + cbn. split; [exact Hsane|discriminate].
  - unfold disconnect, bind, read, ret, on_this, modify. cbn.
    destruct (_connected (this w)); cbn; (split; [|discriminate]);
      try exact Hsane;
      apply (sane_shrink Hsane); cbn; try apply incl_refl; try lia; apply Hsane.
  - cbn. split; [|discriminate].
    apply (sane_shrink Hsane); cbn; try apply incl_refl; try lia; apply Hsane.
  - cbn. split; [|discriminate].
    apply (sane_shrink Hsane); cbn; try apply incl_refl; try lia; apply Hsane.
  - cbn. split; [|discriminate].
    apply (sane_shrink Hsane); cbn; try apply incl_refl; try lia; apply Hsane.
Qed.

Lemma initial_sane (app_type : NativeAppType) : sane (initial app_type).
Proof.
  unfold sane. cbn. split; [lia|]. split; [intros ? []|intros ? []].
Qed.

Lemma run_sane (evs : list Event) :
  forall w, sane w ->
  sane (snd (run evs w)) /\ ~ In Exhausted (fst (run evs w)).
Proof.
  induction evs as [|ev evs IH]; intros w Hsane; [cbn; auto|].
  cbn [run].
  destruct (handle_sane ev Hsane) as [Hw Hc].
  destruct (handle ev w) as [c w'].
  destruct (IH w' Hw) as [Hfinal Hcs].
  destruct (run evs w') as [cs w'']. cbn [fst snd] in *.
  split; [exact Hfinal|].
  intros [Heq|Hin]; [congruence|auto].
Qed.

(** X18 (the partial-frame branch is dead).  Every run from a new
    connection ends, and the partial-frame branch of [processMessageQueue]
    is never entered: [_remainingMessageSize] is never positive. *)
Theorem partial_frame_branch_is_dead (evs : list Event) (app_type : NativeAppType) :
  let r := run evs (initial app_type) in
  ~ In Exhausted (fst r) /\ _remainingMessageSize (this (snd r)) <= 0.
Proof.
  destruct (run_sane evs _ (initial_sane app_type)) as [Hsane Hex].
  split; [exact Hex|apply Hsane].
Qed.

(** X19 (a timeout removes no reader).  After any run from a new
    connection, a timeout that fires removes no reader from the queue. *)
Theorem timeout_never_deregisters (evs : list Event) (app_type : NativeAppType) (p : nat) :
  let w := snd (run evs (initial app_type)) in
  _readQueue (this (snd (fireTimeout p w))) = _readQueue (this w).
Proof.
  cbn zeta.
  destruct (run_sane evs _ (initial_sane app_type)) as [Hsane _].
  rewrite (fireTimeout_sane_eq p Hsane). cbn [snd].
  destruct (existsb (Nat.eqb p) (timers (snd (run evs (initial app_type))))); reflexivity.
Qed.

(** C10 (timeout of zero).  [readMessage(0)] is [readMessage()]: the test
    [if (timeoutMs)] fails for 0, so the promise's own [resolve] is queued
    and no timer is armed.  After any run from a new connection the call
    returns a new promise for which no timeout can fire: firing one does
    nothing. *)
Theorem readMessage_zero_timeout :
  (forall w : World,
     readMessage (Some 0) w = readMessage None w /\
     incl (timers (snd (readMessage (Some 0) w))) (timers w)) /\
  (forall (evs : list Event) (app_type : NativeAppType),
     let w := snd (run evs (initial app_type)) in
     let r := readMessage (Some 0) w in
     fst r = Normal (length (promises w)) /\
     fireTimeout (length (promises w)) (snd r) = (Normal tt, snd r)).
Proof.
  assert (forall w : World,
            incl (timers (snd (readMessage (Some 0) w))) (timers w) /\
            fst (readMessage (Some 0) w) = Normal (length (promises w))) as Hgen.
  { intros w. rewrite readMessage_eq. cbn zeta.
    destruct (processMessageQueue (registered (Some 0) w)) as [c w'] eqn:Hrun.
    apply processMessageQueue_facts in Hrun.
    destruct Hrun as (Hex & _ & Hincl & _).
    destruct c as [[]|e|]; cbn [fst snd]; try congruence; auto. }
  split.
  - intros w. split; [reflexivity|apply Hgen].
  - intros evs app_type. cbn zeta.
    destruct (run_sane evs _ (initial_sane app_type)) as [Hsane _].
    set (w := snd (run evs (initial app_type))) in *.
    destruct (Hgen w) as [Hincl Hfst]. split; [exact Hfst|].
    assert (sane (snd (readMessage (Some 0) w))) as Hsane'
      by (apply (readMessage_sane (Some 0) Hsane)).
    rewrite (fireTimeout_sane_eq _ Hsane').
    destruct (existsb (Nat.eqb (length (promises w)))
                (timers (snd (readMessage (Some 0) w)))) eqn:Harmed; [|reflexivity].
    apply existsb_eqb_In, Hincl in Harmed.
    apply Hsane in Harmed. lia.
Qed.

End Reachable.

(** ** The sender *)

Lemma utf8_chars_ascii {s : jsstring} :
  ascii_text s -> utf8_chars s = map (fun u => [u]) s.
Proof.
  induction 1 as [|u s Hu Hs IH]; [reflexivity|].
  cbn [utf8_chars map].
  unfold is_high_surrogate, is_low_surrogate, utf8_of_codepoint.
  replace (0xD800 <=? u) with false by (symmetry; apply Z.leb_gt; lia).
  replace (0xDC00 <=? u) with false by (symmetry; apply Z.leb_gt; lia).
  replace (u <? 0x80) with true by (symmetry; apply Z.ltb_lt; lia).
  cbn. rewrite IH. reflexivity.
Qed.

Lemma take_fitting_singletons (s : list Z) (room : nat) :
  (length s <= room)%nat -> take_fitting (map (fun u => [u]) s) room = s.
Proof.
  revert room. induction s as [|u s IH]; intros room Hroom; [reflexivity|].
  cbn [map take_fitting length] in *.
  destruct room as [|room]; [lia|].
  cbn. rewrite Nat.sub_0_r, IH by lia. reflexivity.
Qed.

Lemma utf8_encode_ascii (s : jsstring) : ascii_text s -> utf8_encode s = s.
Proof.
  intros Hs. unfold utf8_encode. rewrite (utf8_chars_ascii Hs).
  induction s as [|u s IH]; [reflexivity|].
  cbn. rewrite IH; [reflexivity|]. inversion Hs; assumption.
Qed.

Lemma utf8_decode_ascii {s : list Z} : ascii_text s -> utf8_decode s = s.
Proof.
  unfold utf8_decode.
  induction 1 as [|u s Hu Hs IH]; [reflexivity|].
  cbn [utf8_decode_from decoder_idle needed]. unfold decode_lead.
  replace (u <=? 0x7F) with true by (symmetry; apply Z.leb_le; lia).
  cbn. fold decoder_idle. rewrite IH. reflexivity.
Qed.

Section Sender.
Context `{RT : Runtime}.

Lemma writeUint32_alloc (value : Z) (n : nat) :
  0 <= value < 2 ^ 32 ->
  writeUint32 (Buffer_alloc (Z.of_nat n + 4)) value 0
  = Normal (uint32_bytes value ++ repeat 0 n).
Proof.
  intros Hv.
  unfold writeUint32, uint32_bytes, writeUInt32BE, writeUInt32LE, Buffer_alloc, store4.
  replace (Z.to_nat (Z.of_nat n + 4)) with (4 + n)%nat by lia.
  replace (0 <=? value) with true by (symmetry; apply Z.leb_le; lia).
  replace (value <? 2 ^ 32) with true by (symmetry; apply Z.ltb_lt; lia).
  rewrite repeat_length.
  replace (Z.to_nat 0 + 4 <=? 4 + n)%nat with true
    by (symmetry; apply Nat.leb_le; lia).
  destruct os_endianness; reflexivity.
Qed.

(** On ASCII text [sendMessage] writes a frame of the wire format. *)
Lemma messageBuffer_ascii (message : JSValue) :
  ascii_text (JSON_stringify message) ->
  len (JSON_stringify message) < 2 ^ 32 ->
  messageBuffer message = Normal (wire_frame (JSON_stringify message)).
Proof.
  intros Hascii Hlen.
  unfold messageBuffer, wire_frame. fold (len (JSON_stringify message)).
  unfold len in *.
  rewrite writeUint32_alloc by lia.
  f_equal. unfold Buffer_write.
  rewrite (utf8_chars_ascii Hascii).
  assert (length (uint32_bytes (Z.of_nat (length (JSON_stringify message)))) = 4%nat)
    as H4 by (unfold uint32_bytes; destruct os_endianness; reflexivity).
  rewrite length_app, repeat_length, H4.
  replace (Z.to_nat 4) with 4%nat by reflexivity.
  rewrite take_fitting_singletons by lia.
  rewrite firstn_app, H4, Nat.sub_diag, firstn_O, app_nil_r.
  rewrite firstn_all2 by lia.
  rewrite skipn_app, H4.
  rewrite skipn_all2 by lia.
  replace (4 + length (JSON_stringify message) - 4)%nat
    with (length (JSON_stringify message)) by lia.
  rewrite skipn_all2 by (rewrite repeat_length; lia).
  rewrite app_nil_r. reflexivity.
Qed.

Lemma asked_app (a b : list Action) : asked (a ++ b) = (asked a + asked b)%nat.
Proof. induction a as [|[payload v|t] a IH]; cbn; rewrite ?IH; reflexivity. Qed.

Lemma received_app (a b : list Action) : received (a ++ b) = received a ++ received b.
Proof. induction a as [|[payload v|t] a IH]; cbn; rewrite ?IH; reflexivity. Qed.

Lemma payloads_app (a b : list Action) : payloads (a ++ b) = payloads a ++ payloads b.
Proof. induction a as [|[payload v|t] a IH]; cbn; rewrite ?IH; reflexivity. Qed.

Lemma asks_only (t : option Z) (n : nat) :
  asked (repeat (Ask t) n) = n /\
  received (repeat (Ask t) n) = [] /\
  payloads (repeat (Ask t) n) = [].
Proof. induction n as [|n (Ha & Hr & Hp)]; cbn; rewrite ?Ha; auto. Qed.

Lemma recvs_only (text : JSValue -> list Z) (vs : list JSValue) :
  asked (map (fun v => Recv (text v) v) vs) = O /\
  received (map (fun v => Recv (text v) v) vs) = vs /\
  payloads (map (fun v => Recv (text v) v) vs) = map text vs.
Proof.
  induction vs as [|v vs (Ha & Hr & Hp)]; cbn; rewrite ?Hr, ?Hp; auto.
Qed.

(** X20 (loop-back, frame by frame).  The loop-back holds when every frame
    arrives as a chunk of its own and the JSON text is ASCII: readers
    registered beforehand receive the values that were sent, in order. *)
Theorem loopback_frame_per_chunk (vs : list JSValue) (app_type : NativeAppType) :
  Forall sendable vs ->
  exists chunks : list Buffer,
    map messageBuffer vs = map Normal chunks /\
    let r := run (repeat (EvRead None) (length vs) ++ map EvData chunks)
                 (initial app_type) in
    fst r = repeat (Normal tt) (length vs + length vs) /\
    promises (snd r) = map Fulfilled vs /\
    _readQueue (this (snd r)) = [] /\
    _messageQueue (this (snd r)) = [].
Proof.
  intros Hvs.
  exists (map (fun v => wire_frame (JSON_stringify v)) vs).
  split.
  - rewrite map_map. apply map_ext_in. intros v Hin.
    rewrite Forall_forall in Hvs. destruct (Hvs v Hin) as (Ha & Hl & _).
    apply messageBuffer_ascii; assumption.
  - set (script := repeat (Ask None) (length vs)
                   ++ map (fun v => Recv (JSON_stringify v) v) vs).
    assert (map event_of script
            = repeat (EvRead None) (length vs)
              ++ map EvData (map (fun v => wire_frame (JSON_stringify v)) vs)) as Hevents.
    { unfold script. rewrite map_app, map_repeat, !map_map. reflexivity. }
    destruct (asks_only None (length vs)) as (Ha1 & Hr1 & Hp1).
    destruct (recvs_only JSON_stringify vs) as (Ha2 & Hr2 & Hp2).
    assert (payloads script = map JSON_stringify vs) as Hp
      by (unfold script; rewrite payloads_app, Hp1, Hp2; reflexivity).
    assert (Forall well_formed script) as Hscript.
    { unfold script. apply Forall_app. split.
      - apply Forall_forall. intros a Hin. apply repeat_spec in Hin. subst. exact I.
      - apply Forall_forall. intros a Hin. apply in_map_iff in Hin.
        destruct Hin as (v & <- & Hin).
        rewrite Forall_forall in Hvs. destruct (Hvs v Hin) as (Hascii & Hl & Hparse).
        cbn. unfold json_of. rewrite (utf8_decode_ascii Hascii). auto. }
    destruct (fifo_run script _ _ _ _ (initial_fifo_state app_type) Hscript)
      as (Hcs & _ & _ & Hproms & Hmq & Hrq).
    cbn [app Nat.add] in Hcs, Hproms, Hmq, Hrq.
    rewrite Hevents in *.
    assert (asked script = length vs) as Hasked
      by (unfold script; rewrite asked_app, Ha1, Ha2; lia).
    assert (received script = vs) as Hrecv
      by (unfold script; rewrite received_app, Hr1, Hr2; reflexivity).
    rewrite Hasked, Hrecv, Hp in *.
    rewrite Nat.sub_diag, firstn_all, app_nil_r in Hproms.
    rewrite Nat.sub_diag in Hrq. cbn [seq] in Hrq. apply map_eq_nil in Hrq.
    rewrite skipn_all2 in Hmq by (rewrite length_map; lia).
    cbn zeta. repeat split; auto.
    rewrite Hcs. unfold script. rewrite length_app, repeat_length, length_map. reflexivity.
Qed.

End Sender.

(** ** Closing the connection *)

Section Lifecycle.
Context `{RT : Runtime}.

(** C8 ([disconnect] is idempotent).  [disconnect] never throws and leaves
    the connection closed; it kills the process once if the connection was
    open and not at all otherwise, and any number of further calls change
    nothing: the process is killed at most once over all the calls. *)
Theorem disconnect_idempotent (w : World) (n : nat) :
  let w1 := snd (disconnect w) in
  fst (disconnect w) = Normal tt /\
  _connected (this w1) = false /\
  kills (_process (this w1))
  = (kills (_process (this w)) + (if _connected (this w) then 1 else 0))%nat /\
  run (repeat EvDisconnect n) w1 = (repeat (Normal tt) n, w1).
Proof.
  destruct w as [[pr ty co mq rq inc rem] ps ts].
  assert (forall w1 : World, _connected (this w1) = false ->
          run (repeat EvDisconnect n) w1 = (repeat (Normal tt) n, w1)) as Hrepeat.
  { intros w1 Hclosed. induction n as [|n IH]; [reflexivity|].
    cbn [repeat run handle]. unfold disconnect at 1, bind, read.
    rewrite Hclosed. cbn. rewrite IH. reflexivity. }
  destruct co; cbn; repeat split; try lia; apply Hrepeat; reflexivity.
Qed.

(** C5, as amended (closing with readers pending).  When the connection
    closes, by the process's [error], [close] or [exit] event or by
    [disconnect], the handler only clears [_connected] (and [disconnect]
    kills the process): no pending reader is failed or removed, the
    promises, the timers and the buffered chunks are as before. *)
Theorem closing_leaves_readers_pending (w : World) (ev : Event) :
  In ev [EvProcessError; EvProcessClose; EvProcessExit; EvDisconnect] ->
  let w' := snd (handle ev w) in
  fst (handle ev w) = Normal tt /\
  _connected (this w') = false /\
  _readQueue (this w') = _readQueue (this w) /\
  _messageQueue (this w') = _messageQueue (this w) /\
  promises w' = promises w /\
  timers w' = timers w.
Proof.
  destruct w as [[pr ty co mq rq inc rem] ps ts].
  intros [<-|[<-|[<-|[<-|[]]]]]; cbn; try (repeat split; reflexivity).
  destruct co; cbn; repeat split; reflexivity.
Qed.

End Lifecycle.

Lemma closing_leaves_readers_pending_witness :
  In EvProcessExit [EvProcessError; EvProcessClose; EvProcessExit; EvDisconnect] /\
  let w := snd (readMessage None (initial Firefox)) in
  let w' := snd (handle EvProcessExit w) in
  fst (handle EvProcessExit w) = Normal tt /\
  _connected (this w') = false /\
  _readQueue (this w') = _readQueue (this w) /\
  _messageQueue (this w') = _messageQueue (this w) /\
  promises w' = promises w /\
  timers w' = timers w.
Proof.
  split.
  - simpl. auto.
  - apply (closing_leaves_readers_pending (RT := node_le)). simpl. auto.
Defined.

(** C5 as stated fails: after [readMessage()] and the [exit] of the process
    the connection is closed and the reader is still queued, its promise
    still pending and not rejected. *)
Lemma pending_reader_survives_exit :
  let w := snd (run [EvRead None; EvProcessExit] (initial (RT := node_le) Firefox)) in
  _connected (this w) = false /\
  _readQueue (this w) = [Resolve 0] /\
  nth_error (promises w) 0 = Some Pending /\
  ~ (exists e, nth_error (promises w) 0 = Some (Rejected e)).
Proof.
  cbn. repeat split; try reflexivity.
  intros [e He]. discriminate.
Qed.

(** ** Manifest lookup *)

Section BootstrapFacts.
Context `{RT : Runtime}.





End BootstrapFacts.



(** ** Runs on sample inputs *)

(** C1 (round trip) fails on the code.  The frame [sendMessage] writes for
    [{ a: 1 }] is received by a connection with one reader waiting:
    split after 2 octets, reading the header throws a RangeError at every
    arrival and the reader stays pending; split after 6 octets, the two
    octets of payload present are dispatched as the whole payload and
    [JSON.parse] throws; and two frames in one chunk are dropped without a
    dispatch, both readers left pending. *)
Theorem loopback_fails_on_split_chunks :
  messageBuffer value_a1 = Normal frame_a1 /\
  (let r := run [EvRead None; EvData (firstn 2 frame_a1); EvData (skipn 2 frame_a1)]
                (initial Firefox) in
   fst r = [Normal tt; Abrupt RangeError; Abrupt RangeError] /\
   promises (snd r) = [Pending]) /\
  (let r := run [EvRead None; EvData (firstn 6 frame_a1); EvData (skipn 6 frame_a1)]
                (initial Firefox) in
   fst r = [Normal tt; Abrupt SyntaxError; Normal tt] /\
   promises (snd r) = [Pending] /\
   _readQueue (this (snd r)) = []) /\
  (let r := run [EvRead None; EvRead None; EvData (frame_a1 ++ frame_a1)]
                (initial Firefox) in
   fst r = [Normal tt; Normal tt; Normal tt] /\
   promises (snd r) = [Pending; Pending] /\
   _messageQueue (this (snd r)) = []).
Proof. cbv zeta. repeat split; reflexivity. Qed.

(** C2 (framing step for a fresh frame) fails on the code: the test that
    the frame fits the chunk is the wrong way round.  A chunk holding a
    frame and more is not dispatched, its rest is not kept, and the count of
    missing octets becomes negative; a chunk holding less than its frame is
    dispatched at once, nothing is accumulated and the chunk stays. *)
Theorem fresh_frame_test_is_inverted :
  (let chunk := wire_frame [49] ++ wire_frame [50] in
   let r := processChunk chunk (buffered chunk one_reader) in
   fst r = Normal tt /\
   promises (snd r) = [Pending] /\
   _readQueue (this (snd r)) = [Resolve 0] /\
   _messageQueue (this (snd r)) = [] /\
   _incompleteMessage (this (snd r)) = js_string [49; 1; 0; 0; 0; 50] /\
   _remainingMessageSize (this (snd r)) = -5) /\
  (let chunk := firstn 6 frame_a1 in
   let r := processChunk chunk (buffered chunk one_reader) in
   fst r = Abrupt SyntaxError /\
   promises (snd r) = [Pending] /\
   _readQueue (this (snd r)) = [] /\
   _messageQueue (this (snd r)) = [chunk] /\
   _incompleteMessage (this (snd r)) = js_undefined /\
   _remainingMessageSize (this (snd r)) = 0).
Proof. cbv zeta. repeat split; reflexivity. Qed.

(** C3 (length prefix) fails on the code for text outside ASCII: for the
    string of the one character U+00E9 the JSON text has 3 code units and 4
    octets, the prefix is 3, and the payload written is cut after 3
    octets. *)
Theorem length_prefix_counts_code_units :
  JSON_stringify e_acute = [34; 233; 34] /\
  utf8_encode (JSON_stringify e_acute) = [34; 195; 169; 34] /\
  utf8_length (JSON_stringify e_acute) = 4 /\
  messageBuffer e_acute = Normal [3; 0; 0; 0; 34; 195; 169].
Proof. cbv zeta. repeat split; reflexivity. Qed.

(** C4 (timeout cancellation) fails on the code: the timeout rejects the
    promise and leaves the reader's callback in the queue, so the frame that
    arrives next goes to the reader that timed out and is lost, while the
    reader registered after it stays pending. *)
Theorem timed_out_reader_consumes_frame :
  (let r := run [EvRead (Some 100); EvTimeout 0] (initial Firefox) in
   fst r = [Normal tt; Normal tt] /\
   promises (snd r) = [Rejected (StringValue "Timeout reached")] /\
   _readQueue (this (snd r)) = [ClearAndResolve 0]) /\
  (let r := run [EvRead (Some 100); EvTimeout 0; EvRead None; EvData frame_a1]
                (initial Firefox) in
   fst r = [Normal tt; Normal tt; Normal tt; Normal tt] /\
   promises (snd r) = [Rejected (StringValue "Timeout reached"); Pending] /\
   _readQueue (this (snd r)) = [Resolve 1] /\
   _messageQueue (this (snd r)) = []).
Proof. cbv zeta. repeat split; reflexivity. Qed.

(** C9 (first in, first out) fails on the code, on a little-endian host.
    First, [readMessage(100)] is called on a new connection and times out,
    [readMessage()] is called twice, and the frames of [1] and of [{ a: 1 }]
    arrive, each as its own chunk: the first frame goes to the callback of
    the reader that timed out and is lost, the first reader that waits gets
    the second frame, and the second reader that waits stays pending with
    nothing left in the buffer.  Second, two readers wait and both frames
    arrive in one chunk: no reader is resolved and the chunk is gone. *)
Theorem fifo_order_is_broken :
  let frame_1 := wire_frame [49] in
  JSON_parse (utf8_decode [49]) = Some (Json.JNumber 1) /\
  (let r := run [EvRead (Some 100); EvTimeout 0; EvRead None; EvRead None;
                 EvData frame_1; EvData frame_a1] (initial Firefox) in
   fst r = repeat (Normal tt) 6 /\
   promises (snd r)
   = [Rejected (StringValue "Timeout reached"); Fulfilled value_a1; Pending] /\
   _readQueue (this (snd r)) = [Resolve 2] /\
   _messageQueue (this (snd r)) = []) /\
  (let r := run [EvRead None; EvRead None; EvData (frame_1 ++ frame_a1)]
                (initial Firefox) in
   fst r = repeat (Normal tt) 3 /\
   promises (snd r) = [Pending; Pending] /\
   _readQueue (this (snd r)) = [Resolve 0; Resolve 1] /\
   _messageQueue (this (snd r)) = []).
Proof. cbv zeta. repeat split; reflexivity. Qed.

(** C6 as stated fails: with one reader waiting, a frame whose payload is
    [{] throws out of the [data] handler and leaves the reader's promise
    pending and the chunk at the head of the queue, where a frame of the
    same length with payload [1] fulfils the promise and leaves the queue
    empty. *)
Lemma malformed_frame_blocks_queue :
  let bad := wire_frame [123] in
  let good := wire_frame [49] in
  JSON_parse (utf8_decode [123]) = None /\
  JSON_parse (utf8_decode [49]) = Some (Json.JNumber 1) /\
  (let r := on_data bad one_reader in
   fst r = Abrupt SyntaxError /\
   promises (snd r) = [Pending] /\
   _readQueue (this (snd r)) = [] /\
   _messageQueue (this (snd r)) = [bad]) /\
  (let r := on_data good one_reader in
   fst r = Normal tt /\
   promises (snd r) = [Fulfilled (Json.JNumber 1)] /\
   _messageQueue (this (snd r)) = []) /\
  _messageQueue (this (snd (on_data bad one_reader)))
  <> _messageQueue (this (snd (on_data good one_reader))).
Proof. cbv zeta. repeat split; try reflexivity. discriminate. Qed.

Lemma malformed_payload_throws_witness :
  let bad := wire_frame (RT := node_le) [123] in
  let w_buffered := snd (on_data bad (initial Firefox)) in
  (_remainingMessageSize (this one_reader) <= 0 /\
   len [123] < 2 ^ 32 /\
   JSON_parse (utf8_decode [123]) = None /\
   _readQueue (this one_reader) = [Resolve 0] /\
   _messageQueue (this one_reader) = [] /\
   _remainingMessageSize (this w_buffered) <= 0 /\
   _readQueue (this w_buffered) = [] /\
   _messageQueue (this w_buffered) = [bad]) /\
  (fst (on_data bad one_reader) = Abrupt SyntaxError /\
   _readQueue (this (snd (on_data bad one_reader))) = [] /\
   promises (snd (on_data bad one_reader)) = promises one_reader /\
   timers (snd (on_data bad one_reader)) = timers one_reader) /\
  (fst (readMessage None w_buffered) = Normal 0%nat /\
   _readQueue (this (snd (readMessage None w_buffered))) = [] /\
   promises (snd (readMessage None w_buffered)) = [Rejected SyntaxError]).
Proof.
  assert (0 <= 0) as H0 by lia.
  assert (len [123] < 2 ^ 32) as Hlen by (vm_compute; reflexivity).
  split; [repeat split; try reflexivity; try exact H0; exact Hlen|].
  split.
  - exact (proj1 (malformed_payload_throws (RT := node_le) one_reader [123]
                    (Resolve 0) [] None H0 Hlen eq_refl) eq_refl eq_refl).
  - exact (proj2 (malformed_payload_throws (RT := node_le)
                    (snd (on_data (wire_frame [123]) (initial Firefox))) [123]
                    (Resolve 0) [] None H0 Hlen eq_refl) [] eq_refl eq_refl).
Defined.

Lemma reads_and_frames_pair_up_witness :
  Forall well_formed sample_script /\
  let result := run (map event_of sample_script) (initial Firefox) in
  fst result = repeat (Normal tt) 6 /\
  promises (snd result)
  = [Fulfilled (Json.JNumber 1); Fulfilled value_a1; Fulfilled Json.JNull] /\
  map promise_of (_readQueue (this (snd result))) = [] /\
  _messageQueue (this (snd result)) = [].
Proof.
  assert (Forall well_formed sample_script) as Hscript
    by (repeat constructor; vm_compute; reflexivity).
  split; [exact Hscript|].
  exact (reads_and_frames_pair_up (RT := node_le) sample_script Firefox Hscript).
Defined.

(** ** The length header *)

Lemma take_fitting_length (chars : list (list Z)) (room : nat) :
  (length (take_fitting chars room) <= room)%nat.
Proof.
  revert room. induction chars as [|c cs IH]; intros room; cbn [take_fitting].
  - cbn. lia.
  - destruct (length c <=? room)%nat eqn:Hfit; [|cbn; lia].
    apply Nat.leb_le in Hfit. rewrite length_app.
    specialize (IH (room - length c)%nat). lia.
Qed.

Lemma skipn_repeat {A} (x : A) (k n : nat) : skipn k (repeat x n) = repeat x (n - k).
Proof.
  revert n. induction k as [|k IH]; intros n.
  - rewrite Nat.sub_0_r. reflexivity.
  - destruct n as [|n]; [reflexivity|]. cbn. apply IH.
Qed.

Section Header.
Context `{RT : Runtime}.

Lemma uint32_bytes_length (value : Z) : length (uint32_bytes value) = 4%nat.
Proof. unfold uint32_bytes. destruct os_endianness; reflexivity. Qed.

Lemma readUint32_header (value : Z) (rest : list Z) :
  0 <= value < 2 ^ 32 ->
  readUint32 (uint32_bytes value ++ rest) 0 = Normal value.
Proof.
  intros Hv. pose proof (@uint32_bytes_LE_value _ Hv) as Hsum.
  unfold readUint32, uint32_bytes.
  destruct os_endianness;
    cbn [rev uint32_bytes_LE app readUInt32BE readUInt32LE Z.to_nat skipn];
    f_equal; lia.
Qed.

(** X1 (header round trip).  In either byte order, writing a uint32 into a
    buffer that has four octets at the offset succeeds, changes those four
    octets only, and reading at the same offset gives the value back. *)
Theorem uint32_write_read (buffer : Buffer) (value offset : Z) :
  0 <= value < 2 ^ 32 ->
  0 <= offset ->
  offset + 4 <= len buffer ->
  exists written : Buffer,
    writeUint32 buffer value offset = Normal written /\
    readUint32 written offset = Normal value /\
    length written = length buffer /\
    firstn (Z.to_nat offset) written = firstn (Z.to_nat offset) buffer /\
    skipn (Z.to_nat offset + 4) written = skipn (Z.to_nat offset + 4) buffer.
Proof.
  intros Hv Hoff Hroom. unfold len in Hroom.
  exists (store4 buffer offset (uint32_bytes value)).
  assert (length (firstn (Z.to_nat offset) buffer) = Z.to_nat offset) as Hfirst
    by (rewrite length_firstn; lia).
  pose proof (uint32_bytes_length value) as H4.
  split; [|split; [|split; [|split]]].
  - unfold writeUint32, writeUInt32BE, writeUInt32LE, uint32_bytes.
    replace (0 <=? value) with true by (symmetry; apply Z.leb_le; lia).
    replace (value <? 2 ^ 32) with true by (symmetry; apply Z.ltb_lt; lia).
    replace (Z.to_nat offset + 4 <=? length buffer)%nat with true
      by (symmetry; apply Nat.leb_le; lia).
    destruct os_endianness; reflexivity.
  - unfold store4.
    assert (forall l : list Z,
              readUint32 (firstn (Z.to_nat offset) buffer ++ uint32_bytes value ++ l)
                offset = Normal value) as Hread.
    { intros l. pose proof (readUint32_header value l Hv) as Hhead.
      unfold readUint32, readUInt32BE, readUInt32LE in *.
      rewrite skipn_app, Hfirst, Nat.sub_diag, skipn_all2 by lia.
      exact Hhead. }
    apply Hread.
  - unfold store4. rewrite !length_app, Hfirst, H4, length_skipn. lia.
  - unfold store4. rewrite firstn_app, Hfirst, Nat.sub_diag, firstn_O, app_nil_r.
    apply firstn_all2. lia.
  - unfold store4. rewrite app_assoc, skipn_app.
    rewrite skipn_all2 by (rewrite length_app, Hfirst, H4; lia).
    rewrite length_app, Hfirst, H4, Nat.sub_diag. reflexivity.
Qed.

Lemma written_payload_length (text : jsstring) :
  length (written_payload text) = length text.
Proof.
  pose proof (take_fitting_length (utf8_chars text) (length text)) as Hfit.
  unfold written_payload. cbn zeta. rewrite length_app, repeat_length. lia.
Qed.

Lemma messageBuffer_written (message : JSValue) :
  len (JSON_stringify message) < 2 ^ 32 ->
  messageBuffer message = Normal (wire_frame (written_payload (JSON_stringify message))).
Proof.
  intros Hlen. set (text := JSON_stringify message) in *.
  pose proof (take_fitting_length (utf8_chars text) (length text)) as Hfit.
  pose proof (written_payload_length text) as Hsize.
  unfold messageBuffer, wire_frame. fold text. unfold len in *.
  rewrite writeUint32_alloc by lia.
  rewrite Hsize. f_equal. unfold Buffer_write.
  pose proof (uint32_bytes_length (Z.of_nat (length text))) as H4.
  rewrite length_app, repeat_length, H4.
  replace (Z.to_nat 4) with 4%nat by reflexivity.
  replace (4 + length text - 4)%nat with (length text) by lia.
  rewrite firstn_app, H4, Nat.sub_diag, firstn_O, app_nil_r.
  rewrite firstn_all2 by lia.
  rewrite skipn_app, H4.
  rewrite skipn_all2 by lia.
  replace (4 + length (take_fitting (utf8_chars text) (length text)) - 4)%nat
    with (length (take_fitting (utf8_chars text) (length text))) by lia.
  rewrite skipn_repeat. cbn [app]. reflexivity.
Qed.

(** X2 (the buffer of [sendMessage]).  For every message whose JSON text
    has fewer than 2^32 code units, the buffer is a frame of the wire
    format whose payload has as many octets as the text has code units: the
    characters of the UTF-8 encoding that fit, whole, and zero octets for the
    rest.  The header therefore always agrees with the size of the buffer,
    also when the payload is cut, and it reads back as the number of code
    units. *)
Theorem messageBuffer_is_frame (message : JSValue) :
  len (JSON_stringify message) < 2 ^ 32 ->
  let payload := written_payload (JSON_stringify message) in
  messageBuffer message = Normal (wire_frame payload) /\
  len payload = len (JSON_stringify message) /\
  readUint32 (wire_frame payload) 0 = Normal (len (JSON_stringify message)).
Proof.
  intros Hlen. cbn zeta.
  pose proof (written_payload_length (JSON_stringify message)) as Hsize.
  assert (len (written_payload (JSON_stringify message)) = len (JSON_stringify message))
    as Hsame by (unfold len; rewrite Hsize; reflexivity).
  split; [apply messageBuffer_written; exact Hlen|]. split; [exact Hsame|].
  rewrite <- Hsame. apply readUint32_wire_frame. rewrite Hsame. exact Hlen.
Qed.

Lemma sent_nil (w : World) : sent [] w = w.
Proof.
  destruct w as [[[k s e] ty co mq rq inc rem] ps ts].
  unfold sent, with_process. cbn. rewrite app_nil_r. reflexivity.
Qed.

Lemma sent_cons (chunk : Buffer) (chunks : list Buffer) (w : World) :
  sent chunks (sent [chunk] w) = sent (chunk :: chunks) w.
Proof.
  unfold sent, with_process. cbn. rewrite <- app_assoc. reflexivity.
Qed.

Lemma streamWrite_ok (chunk : Buffer) (w : World) :
  stdin_error (_process (this w)) = None ->
  streamWrite chunk w = (Normal tt, sent [chunk] w).
Proof.
  intros Hok. unfold streamWrite, sent. rewrite Hok. reflexivity.
Qed.

(** X3 (sends keep their order).  While the standard input of the process
    raises no error, any number of calls of [sendMessage] complete normally
    and append their frames to it in the order of the calls; nothing else
    of the world changes, and [_connected] is not consulted. *)
Theorem sends_are_written_in_order (messages : list JSValue) (w : World) :
  stdin_error (_process (this w)) = None ->
  Forall (fun v => len (JSON_stringify v) < 2 ^ 32) messages ->
  run (map EvSend messages) w
  = (repeat (Normal tt) (length messages),
     sent (map (fun v => wire_frame (written_payload (JSON_stringify v))) messages) w).
Proof.
  intros Hok Hall. revert w Hok.
  induction Hall as [|v vs Hv Hvs IH]; intros w Hok.
  - cbn. rewrite sent_nil. reflexivity.
  - cbn [map run handle length repeat].
    unfold sendMessage, bind, lift.
    rewrite (messageBuffer_written v Hv).
    rewrite (streamWrite_ok _ w Hok).
    rewrite IH by (cbn; exact Hok).
    rewrite sent_cons. reflexivity.
Qed.


End Header.

(** ** What the handlers keep *)

Section Handlers.
Context `{RT : Runtime}.

Lemma queued_nil (w : World) : queued [] w = w.
Proof.
  destruct w as [[pr ty co mq rq inc rem] ps ts].
  unfold queued, with_messageQueue. cbn. rewrite app_nil_r. reflexivity.
Qed.

Lemma queued_cons (chunk : Buffer) (chunks : list Buffer) (w : World) :
  queued chunks (buffered chunk w) = queued (chunk :: chunks) w.
Proof.
  unfold queued, buffered, with_messageQueue. cbn. rewrite <- app_assoc. reflexivity.
Qed.

(** X5 (no reader, no parsing).  While no reader is registered, chunks that
    arrive are only appended to the queue, in the order of arrival: nothing
    is read from them, whatever they hold, and nothing is thrown. *)
Theorem data_without_reader_is_buffered (chunks : list Buffer) (w : World) :
  _readQueue (this w) = [] ->
  run (map EvData chunks) w = (repeat (Normal tt) (length chunks), queued chunks w).
Proof.
  revert w. induction chunks as [|chunk chunks IH]; intros w Hrq.
  - cbn. rewrite queued_nil. reflexivity.
  - cbn [map run handle length repeat].
    rewrite on_data_eq, processMessageQueue_no_reader by exact Hrq.
    rewrite IH by exact Hrq. rewrite queued_cons. reflexivity.
Qed.

(** Settling one promise leaves the others as they are. *)
Lemma settle_other (q p : nat) (s : PromiseState) (ps : list PromiseState) :
  q <> p -> nth_error (settle q s ps) p = nth_error ps p.
Proof.
  intros Hne. unfold settle.
  destruct (nth_error ps q) as [[| |]|] eqn:Hq; try reflexivity.
  assert (q < length ps)%nat as Hlt by (apply nth_error_Some; congruence).
  destruct (Nat.lt_ge_cases p q) as [Hpq|Hpq].
  - rewrite nth_error_app1 by (rewrite length_firstn; lia).
    rewrite nth_error_firstn.
    replace (p <? q)%nat with true by (symmetry; apply Nat.ltb_lt; lia). reflexivity.
  - rewrite nth_error_app2 by (rewrite length_firstn; lia).
    rewrite length_firstn.
    replace (p - Nat.min q (length ps))%nat with (S (p - S q)) by lia.
    cbn [nth_error]. rewrite nth_error_skipn.
    replace (S q + (p - S q))%nat with p by lia. reflexivity.
Qed.

(** Settling a pending promise gives it its state. *)
Lemma settle_same (p : nat) (s : PromiseState) (ps : list PromiseState) :
  nth_error ps p = Some Pending -> nth_error (settle p s ps) p = Some s.
Proof.
  intros Hp. unfold settle. rewrite Hp.
  assert (p < length ps)%nat as Hlt by (apply nth_error_Some; congruence).
  rewrite nth_error_app2 by (rewrite length_firstn; lia).
  rewrite length_firstn. replace (p - Nat.min p (length ps))%nat with O by lia.
  reflexivity.
Qed.

Ltac call_leaf :=
  let Heq := fresh "Heq" in
  intros Heq; injection Heq as <- <-; cbn;
  first [ left; split; reflexivity
        | right; eexists; split; [reflexivity|];
          first [ left; split; reflexivity
                | right; eexists; split; reflexivity ] ].

(** What one turn of the loop does to the readers: it leaves the queue and
    the promises alone, or it shifts the oldest reader and either throws on
    the payload before calling it, or calls it, and no other, with the
    value. *)
Lemma processChunk_calls (buffer : Buffer) (w w' : World) (c : Completion unit) :
  processChunk buffer w = (c, w') ->
  (_readQueue (this w') = _readQueue (this w) /\ promises w' = promises w) \/
  (exists callback,
     _readQueue (this w) = callback :: _readQueue (this w') /\
     ((c = Abrupt SyntaxError /\ promises w' = promises w) \/
      (exists v, c = Normal tt /\
                 promises w' = settle (promise_of callback) (Fulfilled v) (promises w)))).
Proof.
  destruct w as [[pr ty co mq rq inc rem] ps ts].
  unfold processChunk, bind, ret, throw, lift, read, modify, on_this,
    messageQueue_shift, messageQueue_set_head. cbn.
  destruct (rem >? 0).
  - destruct (len buffer >=? rem).
    + rewrite dispatchMessage_eq. cbn.
      destruct rq as [|callback rest];
        destruct (JSON_parse _); try rewrite call_eq;
        try destruct callback; cbn;
        destruct (len buffer >? rem); cbn; call_leaf.
    + call_leaf.
  - destruct (readUint32 buffer 0) as [messageLen|e|]; cbn.
    + destruct (messageLen + 4 >=? len buffer).
      * rewrite dispatchMessage_eq. cbn.
        destruct rq as [|callback rest];
          destruct (JSON_parse _); try rewrite call_eq;
          try destruct callback; cbn;
          destruct (messageLen + 4 >? len buffer); cbn; call_leaf.
      * call_leaf.
    + call_leaf.
    + call_leaf.
Qed.

(** The loop settles no promise but those of the readers in the queue. *)
Lemma processLoop_settles_queued (fuel : nat) :
  forall (w w' : World) (c : Completion unit) (q : nat),
  processLoop fuel w = (c, w') ->
  (forall callback, In callback (_readQueue (this w)) -> promise_of callback <> q) ->
  nth_error (promises w') q = nth_error (promises w) q.
Proof.
  induction fuel as [|fuel IH]; intros w w' c q Hrun Hout; cbn in Hrun.
  - destruct (_messageQueue (this w)) as [|buffer mq];
      [|destruct (_readQueue (this w)) as [|callback rq]];
      injection Hrun as <- <-; reflexivity.
  - destruct (_messageQueue (this w)) as [|buffer mq];
      [|destruct (_readQueue (this w)) as [|callback rq] eqn:Hrq];
      try (injection Hrun as <- <-; reflexivity).
    unfold bind in Hrun.
    destruct (processChunk buffer w) as [c1 w1] eqn:Hchunk.
    apply processChunk_calls in Hchunk. rewrite Hrq in Hchunk.
    assert (nth_error (promises w1) q = nth_error (promises w) q
            /\ forall cb, In cb (_readQueue (this w1)) -> promise_of cb <> q)
      as [Hq Hout1].
    { destruct Hchunk as [[Hsame Hps]|(cb & Hshift & [[_ Hps]|(v & _ & Hps)])].
      - rewrite Hps, Hsame. auto.
      - injection Hshift as <- Hrest. rewrite Hps. split; [reflexivity|].
        intros cb Hin. apply Hout. right. rewrite Hrest. exact Hin.
      - injection Hshift as <- Hrest. rewrite Hps. split.
        + apply settle_other. apply Hout. left. reflexivity.
        + intros cb Hin. apply Hout. right. rewrite Hrest. exact Hin. }
    destruct c1 as [[]|e|].
    + rewrite <- Hq. eapply IH; eauto.
    + injection Hrun as <- <-. exact Hq.
    + injection Hrun as <- <-. exact Hq.
Qed.

Lemma processMessageQueue_settles_queued (w w' : World) (c : Completion unit) (q : nat) :
  processMessageQueue w = (c, w') ->
  (forall callback, In callback (_readQueue (this w)) -> promise_of callback <> q) ->
  nth_error (promises w') q = nth_error (promises w) q.
Proof.
  unfold processMessageQueue. intros Hrun Hout.
  destruct (_readQueue (this w)) as [|callback rq] eqn:Hrq;
    [injection Hrun as <- <-; reflexivity|].
  destruct (_messageQueue (this w)) as [|buffer mq];
    [injection Hrun as <- <-; reflexivity|].
  eapply processLoop_settles_queued; [exact Hrun|]. rewrite Hrq. exact Hout.
Qed.

(** When the loop throws, the reader that came last, whose promise no
    reader before it shares, has not been called. *)
Lemma processLoop_throws_before_last (fuel : nat) :
  forall (w w' : World) (e : JsError) (before : list Callback) (last : Callback),
  processLoop fuel w = (Abrupt e, w') ->
  _readQueue (this w) = before ++ [last] ->
  Forall (fun callback => promise_of callback <> promise_of last) before ->
  nth_error (promises w) (promise_of last) = Some Pending ->
  nth_error (promises w') (promise_of last) = Some Pending.
Proof.
  induction fuel as [|fuel IH]; intros w w' e before last Hrun Hrq Hbefore Hp;
    cbn in Hrun.
  - destruct (_messageQueue (this w)) as [|buffer mq];
      [|destruct (_readQueue (this w)) as [|callback rq]]; discriminate.
  - destruct (_messageQueue (this w)) as [|buffer mq]; [discriminate|].
    destruct (_readQueue (this w)) as [|callback rq] eqn:Hq; [discriminate|].
    unfold bind in Hrun.
    destruct (processChunk buffer w) as [c1 w1] eqn:Hchunk.
    apply processChunk_calls in Hchunk. rewrite Hq in Hchunk.
    destruct Hchunk as [[Hsame Hps]|(cb & Hshift & [[Hc Hps]|(v & Hc & Hps)])].
    + destruct c1 as [[]|e1|]; try discriminate.
      * eapply IH; [exact Hrun|rewrite Hsame; exact Hrq|exact Hbefore|].
        rewrite Hps. exact Hp.
      * injection Hrun as _ <-. rewrite Hps. exact Hp.
    + subst c1. injection Hrun as _ <-. rewrite Hps. exact Hp.
    + subst c1. injection Hshift as <- Hrest.
      destruct before as [|first before'].
      * cbn in Hrq. injection Hrq as _ Hnil.
        rewrite processLoop_no_reader in Hrun by congruence. discriminate.
      * cbn in Hrq. injection Hrq as -> Htail.
        apply Forall_cons_iff in Hbefore as [Hfirst Hrest'].
        eapply IH; [exact Hrun|rewrite <- Hrest; exact Htail|exact Hrest'|].
        rewrite Hps, settle_other by exact Hfirst. exact Hp.
Qed.

Lemma promise_of_new_reader (timeoutMs : option Z) (p : nat) :
  promise_of (new_reader timeoutMs p) = p.
Proof. unfold new_reader. destruct (truthy timeoutMs); reflexivity. Qed.

(** X6 ([readMessage] never throws).  In every world [readMessage] returns
    a promise that did not exist before, and the promises become one more.
    When the framing step it runs completes normally the world is the one
    the step left.  When the step throws, in a world a connection can
    reach, the exception does not leave [readMessage]: the new promise is
    rejected with it, and nothing else of what the step left is changed. *)
Theorem readMessage_never_throws (timeoutMs : option Z) (w : World) :
  let p := length (promises w) in
  let step := processMessageQueue (registered timeoutMs w) in
  let after := snd (readMessage timeoutMs w) in
  fst (readMessage timeoutMs w) = Normal p /\
  length (promises after) = S p /\
  (fst step = Normal tt -> after = snd step) /\
  (forall e, fst step = Abrupt e -> sane w ->
     nth_error (promises after) p = Some (Rejected e) /\
     (forall q, q <> p -> nth_error (promises after) q = nth_error (promises (snd step)) q) /\
     this after = this (snd step) /\
     timers after = timers (snd step)).
Proof.
  cbn zeta. rewrite readMessage_eq. cbn zeta.
  destruct (processMessageQueue (registered timeoutMs w)) as [c w'] eqn:Hrun.
  assert (length (promises (registered timeoutMs w)) = S (length (promises w))) as Hreg
    by (unfold registered; cbn; rewrite length_app; cbn; lia).
  pose proof (processMessageQueue_facts _ _ _ Hrun) as (Hex & Hlen & _).
  split; [destruct c as [[]|e|]; cbn [fst]; congruence|].
  split; [destruct c as [[]|e|]; cbn [fst snd promises]; rewrite ?settle_length; congruence|].
  split; [intros Hc; cbn [fst] in Hc; subst c; reflexivity|].
  intros e Hc Hsane. cbn [fst] in Hc. subst c. cbn [snd promises this timers].
  split; [|split; [|split; reflexivity]].
  - apply settle_same.
    assert (nth_error (promises (registered timeoutMs w)) (length (promises w))
            = Some Pending) as Hnew.
    { unfold registered. cbn. rewrite nth_error_app2, Nat.sub_diag by lia. reflexivity. }
    unfold processMessageQueue in Hrun.
    destruct (_readQueue (this (registered timeoutMs w))) as [|callback rq] eqn:Hrq;
      [discriminate|].
    destruct (_messageQueue (this (registered timeoutMs w))) as [|buffer mq];
      [discriminate|].
    rewrite <- (promise_of_new_reader timeoutMs (length (promises w))).
    eapply processLoop_throws_before_last with (before := _readQueue (this w));
      [exact Hrun| | |].
    + reflexivity.
    + rewrite promise_of_new_reader. apply Forall_forall. intros cb Hin.
      destruct Hsane as (_ & Hq & _). specialize (Hq cb Hin). lia.
    + rewrite promise_of_new_reader. exact Hnew.
  - intros q Hq. apply settle_other. congruence.
Qed.

(** X7 (a frame reaches queued readers only).  A promise that no reader in
    the queue stands for is left exactly as it is, pending or settled, by
    whatever arrives and by every later call of [readMessage]: the framing
    step settles promises through the callbacks it shifts off the queue and
    through nothing else. *)
Theorem frames_settle_queued_readers_only (w : World) (q : nat) :
  (forall callback, In callback (_readQueue (this w)) -> promise_of callback <> q) ->
  (forall chunk,
     nth_error (promises (snd (on_data chunk w))) q = nth_error (promises w) q) /\
  (forall timeoutMs, (q < length (promises w))%nat ->
     nth_error (promises (snd (readMessage timeoutMs w))) q = nth_error (promises w) q).
Proof.
  intros Hout. split.
  - intros chunk. rewrite on_data_eq.
    destruct (processMessageQueue (buffered chunk w)) as [c w'] eqn:Hrun. cbn [snd].
    apply (processMessageQueue_settles_queued _ _ _ q) in Hrun; [exact Hrun|].
    unfold buffered. cbn. destruct (this w); exact Hout.
  - intros timeoutMs Hq. rewrite readMessage_eq. cbn zeta.
    destruct (processMessageQueue (registered timeoutMs w)) as [c w'] eqn:Hrun.
    apply (processMessageQueue_settles_queued _ _ _ q) in Hrun.
    + assert (nth_error (promises w') q = nth_error (promises w) q) as Hsame.
      { rewrite Hrun. unfold registered. cbn. apply nth_error_app1. exact Hq. }
      destruct c as [[]|e|]; cbn [snd promises]; try exact Hsame.
      rewrite settle_other by lia. exact Hsame.
    + intros cb Hin.
      assert (In cb (_readQueue (this w) ++ [new_reader timeoutMs (length (promises w))]))
        as Hin' by (unfold registered in Hin; cbn in Hin; destruct (this w); exact Hin).
      apply in_app_or in Hin'. destruct Hin' as [Hold|[<-|[]]]; [auto|].
      rewrite promise_of_new_reader. lia.
Qed.

Lemma filter_out_absent (p : nat) (ts : list nat) :
  existsb (Nat.eqb p) (filter (fun q => negb (Nat.eqb q p)) ts) = false.
Proof.
  induction ts as [|t ts IH]; [reflexivity|].
  cbn [filter]. destruct (Nat.eqb t p) eqn:Htp; cbn [negb]; [exact IH|].
  cbn [existsb]. rewrite IH, Nat.eqb_sym, Htp. reflexivity.
Qed.

(** X8 (a frame in time cancels the timeout).  When [readMessage] is called
    with a timeout on a connection with nothing buffered and no other
    reader, and the frame of a JSON text arrives before the timeout, the
    promise is fulfilled with its value and the timeout, should it still be
    delivered, does nothing. *)
Theorem frame_in_time_cancels_timeout (w : World) (timeoutMs : Z)
  (payload : list Z) (v : JSValue) :
  timeoutMs <> 0 ->
  _readQueue (this w) = [] ->
  _messageQueue (this w) = [] ->
  _remainingMessageSize (this w) <= 0 ->
  json_of payload v ->
  let p := length (promises w) in
  let r := run [EvRead (Some timeoutMs); EvData (wire_frame payload); EvTimeout p] w in
  fst r = [Normal tt; Normal tt; Normal tt] /\
  promises (snd r) = promises w ++ [Fulfilled v] /\
  _readQueue (this (snd r)) = [] /\
  ~ In p (timers (snd r)).
Proof.
  intros Hms Hrq Hmq Hrem [Hlen Hparse]. cbn zeta.
  set (p := length (promises w)).
  set (w1 := {| this := with_readQueue [ClearAndResolve p] (this w);
                promises := promises w ++ [Pending];
                timers := p :: timers w |}).
  set (w2 := delivered (ClearAndResolve p) v (buffered (wire_frame payload) w1)).
  assert (readMessage (Some timeoutMs) w = (Normal p, w1)) as Hread.
  { rewrite readMessage_eq. cbn zeta.
    assert (registered (Some timeoutMs) w = w1) as ->.
    { unfold registered, new_reader.
      replace (truthy (Some timeoutMs)) with true
        by (symmetry; cbn; apply negb_true_iff, Z.eqb_neq; exact Hms).
      rewrite Hrq. reflexivity. }
    rewrite processMessageQueue_no_chunk by exact Hmq. reflexivity. }
  assert (on_data (wire_frame payload) w1 = (Normal tt, w2)) as Hdata.
  { rewrite on_data_eq.
    erewrite processMessageQueue_eq by (cbn; rewrite ?Hmq; reflexivity).
    unfold bind.
    erewrite processChunk_aligned
      by (cbn; first [exact Hrem | exact Hlen | reflexivity]).
    rewrite Hparse.
    apply processLoop_no_reader. reflexivity. }
  assert (fireTimeout p w2 = (Normal tt, w2)) as Hfire.
  { unfold fireTimeout.
    replace (existsb (Nat.eqb p) (timers w2)) with false; [reflexivity|].
    symmetry. apply (filter_out_absent p (p :: timers w)). }
  assert (run [EvRead (Some timeoutMs); EvData (wire_frame payload); EvTimeout p] w
          = ([Normal tt; Normal tt; Normal tt], w2)) as ->.
  { cbn [run handle]. unfold bind, ret. rewrite Hread, Hdata, Hfire. reflexivity. }
  cbn [fst snd].
  split; [reflexivity|]. split; [|split; [reflexivity|]].
  - unfold w2, delivered, after_call, buffered, w1. cbn [promises].
    apply (settle_pending (promises w) []).
  - unfold w2, delivered, after_call, buffered, w1. cbn [timers].
    intros Hin. apply filter_In in Hin. destruct Hin as [_ Hne].
    rewrite Nat.eqb_refl in Hne. discriminate.
Qed.

End Handlers.

(** ** The framing step and the state of the connection *)

Section Connected.
Context `{RT : Runtime}.

Lemma processChunk_marked (connected : bool) (buffer : Buffer) (w : World) :
  processChunk buffer (marked connected w)
  = (fst (processChunk buffer w), marked connected (snd (processChunk buffer w))).
Proof.
  destruct w as [[pr ty co mq rq inc rem] ps ts].
  unfold processChunk, marked, bind, ret, throw, lift, read, modify, on_this,
    messageQueue_shift, messageQueue_set_head. cbn.
  destruct (rem >? 0).
  - destruct (len buffer >=? rem).
    + rewrite !dispatchMessage_eq. cbn.
      destruct rq as [|callback rest];
        destruct (JSON_parse _); try rewrite !call_eq;
        try destruct callback; cbn;
        destruct (len buffer >? rem); reflexivity.
    + reflexivity.
  - destruct (readUint32 buffer 0) as [messageLen|e|]; cbn; try reflexivity.
    destruct (messageLen + 4 >=? len buffer); [|reflexivity].
    rewrite !dispatchMessage_eq. cbn.
    destruct rq as [|callback rest];
      destruct (JSON_parse _); try rewrite !call_eq;
      try destruct callback; cbn;
      destruct (messageLen + 4 >? len buffer); reflexivity.
Qed.

Lemma processLoop_marked (connected : bool) (fuel : nat) :
  forall w : World,
  processLoop fuel (marked connected w)
  = (fst (processLoop fuel w), marked connected (snd (processLoop fuel w))).
Proof.
  induction fuel as [|fuel IH]; intros w; cbn [processLoop];
    change (_messageQueue (this (marked connected w))) with (_messageQueue (this w));
    change (_readQueue (this (marked connected w))) with (_readQueue (this w));
    destruct (_messageQueue (this w)) as [|buffer mq]; try reflexivity;
    destruct (_readQueue (this w)) as [|callback rq]; try reflexivity.
  unfold bind. rewrite processChunk_marked.
  destruct (processChunk buffer w) as [[[]|e|] w1]; cbn [fst snd]; try reflexivity.
  apply IH.
Qed.

Lemma processMessageQueue_marked (connected : bool) (w : World) :
  processMessageQueue (marked connected w)
  = (fst (processMessageQueue w), marked connected (snd (processMessageQueue w))).
Proof.
  unfold processMessageQueue.
  change (_messageQueue (this (marked connected w))) with (_messageQueue (this w)).
  change (_readQueue (this (marked connected w))) with (_readQueue (this w)).
  destruct (_readQueue (this w)) as [|callback rq]; try reflexivity.
  destruct (_messageQueue (this w)) as [|buffer mq]; try reflexivity.
  apply processLoop_marked.
Qed.

(** X9 (framing ignores [_connected]).  The [data] handler and
    [readMessage] never read [_connected]: on a closed connection chunks
    are framed and readers are served exactly as on an open one, and the
    flag is left as it was. *)
Theorem framing_ignores_connected (connected : bool) (w : World) :
  (forall chunk : Buffer,
     on_data chunk (marked connected w)
     = (fst (on_data chunk w), marked connected (snd (on_data chunk w)))) /\
  (forall timeoutMs : option Z,
     readMessage timeoutMs (marked connected w)
     = (fst (readMessage timeoutMs w), marked connected (snd (readMessage timeoutMs w)))).
Proof.
  split.
  - intros chunk. rewrite !on_data_eq.
    change (buffered chunk (marked connected w)) with (marked connected (buffered chunk w)).
    apply processMessageQueue_marked.
  - intros timeoutMs. rewrite !readMessage_eq. cbn zeta.
    change (registered timeoutMs (marked connected w))
      with (marked connected (registered timeoutMs w)).
    rewrite processMessageQueue_marked.
    destruct (processMessageQueue (registered timeoutMs w)) as [[[]|e|] w'];
      reflexivity.
Qed.

Lemma processLoop_quiet (fuel : nat) :
  forall w w' : World,
  processLoop fuel w = (Normal tt, w') ->
  _readQueue (this w') = [] \/ _messageQueue (this w') = [].
Proof.
  induction fuel as [|fuel IH]; intros w w' Hrun; cbn in Hrun.
  - destruct (_messageQueue (this w)) as [|buffer mq] eqn:Hmq;
      [|destruct (_readQueue (this w)) as [|callback rq] eqn:Hrq];
      try discriminate; injection Hrun as <-; auto.
  - destruct (_messageQueue (this w)) as [|buffer mq] eqn:Hmq;
      [|destruct (_readQueue (this w)) as [|callback rq] eqn:Hrq];
      try (injection Hrun as <-; auto; fail).
    unfold bind in Hrun.
    destruct (processChunk buffer w) as [[[]|e|] w1]; try discriminate.
    eapply IH; eauto.
Qed.

(** X10 (no frame waits while a reader waits).  When the [data] handler
    completes normally, the queue of readers or the queue of chunks is
    empty: the loop stops only when one of them runs out, or by an
    exception. *)
Theorem normal_step_empties_a_queue (chunk : Buffer) (w : World) :
  fst (on_data chunk w) = Normal tt ->
  _readQueue (this (snd (on_data chunk w))) = [] \/
  _messageQueue (this (snd (on_data chunk w))) = [].
Proof.
  rewrite on_data_eq. unfold processMessageQueue.
  destruct (_readQueue (this (buffered chunk w))) as [|callback rq] eqn:Hrq;
    [intros _; left; exact Hrq|].
  destruct (_messageQueue (this (buffered chunk w))) as [|buffer mq] eqn:Hmq;
    [intros _; right; exact Hmq|].
  intros Hnormal.
  destruct (processLoop _ (buffered chunk w)) as [c w'] eqn:Hrun.
  cbn [fst snd] in *. subst c.
  eapply processLoop_quiet; eauto.
Qed.

(** X11 (a chunk shorter than the header blocks the connection).  With no
    partial frame awaited and a reader waiting, a head chunk of fewer than
    four octets is never joined with what follows: every later arrival is
    appended behind it and throws the RangeError of reading the header
    again; no reader is called or removed. *)
Theorem short_head_chunk_blocks (chunks : list Buffer) (w : World)
  (short : Buffer) (more : list Buffer) (callback : Callback) (rest : list Callback) :
  _messageQueue (this w) = short :: more ->
  len short < 4 ->
  _readQueue (this w) = callback :: rest ->
  _remainingMessageSize (this w) <= 0 ->
  run (map EvData chunks) w
  = (repeat (Abrupt RangeError) (length chunks), queued chunks w).
Proof.
  intros Hmq Hshort Hrq Hrem. revert w more Hmq Hrq Hrem.
  induction chunks as [|chunk chunks IH]; intros w more Hmq Hrq Hrem.
  - cbn. rewrite queued_nil. reflexivity.
  - cbn [map run handle length repeat].
    rewrite on_data_eq.
    erewrite processMessageQueue_eq
      by (cbn; rewrite ?Hmq, ?Hrq; reflexivity).
    unfold bind.
    rewrite processChunk_header_split by (cbn; auto).
    rewrite (IH (buffered chunk w) (more ++ [chunk]))
      by (cbn; rewrite ?Hmq; auto).
    rewrite queued_cons. reflexivity.
Qed.

(** X12 ([disconnect] after the process ended).  Once the process reported
    an [error], its [close] or its [exit], [disconnect] completes normally
    and does not kill it. *)
Theorem disconnect_after_end_kills_nothing (ev : Event) (w : World) :
  In ev [EvProcessError; EvProcessClose; EvProcessExit] ->
  let r := run [ev; EvDisconnect] w in
  fst r = [Normal tt; Normal tt] /\
  kills (_process (this (snd r))) = kills (_process (this w)) /\
  _connected (this (snd r)) = false.
Proof.
  destruct w as [[pr ty co mq rq inc rem] ps ts].
  intros [<-|[<-|[<-|[]]]]; cbn; auto.
Qed.

End Connected.

(** ** The search for a manifest *)

Lemma findManifest_loop_sound (h : Host) (manifest_name : string)
  (locations : list (Completion (string * NativeAppType))) (path : string)
  (t : NativeAppType) :
  findManifest_loop h manifest_name locations = Normal (Some (path, t)) ->
  exists searchPath,
    In (Normal (searchPath, t)) locations /\
    path = manifest_at searchPath manifest_name /\
    regular h path = true.
Proof.
  induction locations as [|[[searchPath t']|e|] rest IH]; cbn [findManifest_loop];
    try discriminate.
  intros Hfound.
  assert (findManifest_loop h manifest_name rest = Normal (Some (path, t)) ->
          exists sp, In (Normal (sp, t)) (Normal (searchPath, t') :: rest) /\
                     path = manifest_at sp manifest_name /\ regular h path = true) as Hrest.
  { intros H. destruct (IH H) as (sp & Hin & Hp & Hr).
    exists sp. split; [right; exact Hin|auto]. }
  destruct (lstat h (path_join searchPath (manifest_name ++ ".json"))) as [stats|] eqn:Hstat;
    [|auto].
  destruct (isFile stats) eqn:Hfile; cbn [negb] in Hfound; [|auto].
  injection Hfound as <- <-.
  exists searchPath. split; [left; reflexivity|]. split; [reflexivity|].
  unfold regular. rewrite Hstat. exact Hfile.
Qed.

(** X13 (what [findManifest] returns).  A path returned by [findManifest]
    is [<manifest_name>.json] joined to a directory that the generator
    yields for the scope, it was reported by [lstat] as a regular file, and
    the family returned with it is the family of that directory. *)
Theorem findManifest_returns_regular_file (h : Host) (manifest_name : string)
  (search_location : Z) (path : string) (t : NativeAppType) :
  findManifest h manifest_name search_location = Normal (Some (path, t)) ->
  exists searchPath,
    In (Normal (searchPath, t)) (getManifestLocations h search_location) /\
    path = manifest_at searchPath manifest_name /\
    regular h path = true.
Proof. apply findManifest_loop_sound. Qed.

(** X14 (the scope only filters).  With [HOME] set, the directories searched
    for a scope are those of the scope [All] whose family has its bit set
    in the scope, in the same order: first the two of Firefox, then Chrome,
    Chromium and Vivaldi.  A narrower scope removes directories and never
    reorders them. *)
Theorem scope_filters_search_order (h : Host) (search_location : Z) (home : string) :
  env_HOME h = Some home ->
  getManifestLocations h search_location
  = filter (in_scope search_location)
      (getManifestLocations h ManifestSearchLocation.All).
Proof.
  intros Hhome. unfold getManifestLocations, home_join.
  destruct (String.eqb (os_platform h) "linux"); [|reflexivity].
  rewrite Hhome.
  change (enabled ManifestSearchLocation.All ManifestSearchLocation.Firefox) with true.
  change (enabled ManifestSearchLocation.All ManifestSearchLocation.Chrome) with true.
  change (enabled ManifestSearchLocation.All ManifestSearchLocation.Chromium) with true.
  change (enabled ManifestSearchLocation.All ManifestSearchLocation.Vivaldi) with true.
  cbn [yield_ app filter in_scope family_bit].
  destruct (enabled search_location ManifestSearchLocation.Firefox),
    (enabled search_location ManifestSearchLocation.Chrome),
    (enabled search_location ManifestSearchLocation.Chromium),
    (enabled search_location ManifestSearchLocation.Vivaldi); reflexivity.
Qed.

Section CreateEdges.
Context `{RT : Runtime}.

(** X15 (another platform).  On a platform other than Linux the generator
    yields no directory, so [create] fails for every name and scope,
    whatever the file system holds, with the TypeError of destructuring
    [null]. *)
Theorem create_fails_off_linux (h : Host) (manifest_name : string)
  (search_location : option Z) :
  String.eqb (os_platform h) "linux" = false ->
  create h manifest_name search_location = Abrupt TypeError.
Proof.
  intros Hplatform. unfold create, findManifest, getManifestLocations.
  rewrite Hplatform. reflexivity.
Qed.

(** X16 ([HOME] not set).  On Linux without [HOME] in the environment, a
    search whose scope includes Firefox fails with the TypeError of
    [path.join] as soon as the system directory of Firefox has no regular
    manifest file: the directories of the other families are never looked
    at. *)
Theorem create_without_home (h : Host) (manifest_name : string)
  (search_location : option Z) :
  String.eqb (os_platform h) "linux" = true ->
  env_HOME h = None ->
  enabled (scope_of search_location) ManifestSearchLocation.Firefox = true ->
  regular h (manifest_at "/usr/lib/mozilla/native-messaging-hosts/" manifest_name) = false ->
  create h manifest_name search_location = Abrupt TypeError.
Proof.
  intros Hplatform Hhome Hfirefox Hnone.
  unfold create, findManifest, getManifestLocations, home_join.
  rewrite Hplatform, Hhome, Hfirefox.
  cbn [yield_ app findManifest_loop].
  unfold regular, manifest_at in Hnone.
  destruct (lstat h (path_join "/usr/lib/mozilla/native-messaging-hosts/"
                       (manifest_name ++ ".json"))) as [stats|];
    [rewrite Hnone|]; reflexivity.
Qed.

End CreateEdges.

(** ** Several frames in one chunk *)

Section Surplus.
Context `{RT : Runtime}.

(** X21 (a frame followed by more in one chunk).  With a reader waiting,
    nothing buffered and no partial frame awaited, a chunk that holds a
    whole frame and at least one octet more is taken off the queue without
    a dispatch: the reader keeps waiting, no promise changes, and the
    octets that followed the frame are gone from the queue of chunks. *)
Theorem surplus_chunk_is_dropped (w : World) (payload more : list Z)
  (callback : Callback) (rest : list Callback) :
  _readQueue (this w) = callback :: rest ->
  _messageQueue (this w) = [] ->
  _remainingMessageSize (this w) <= 0 ->
  len payload < 2 ^ 32 ->
  more <> [] ->
  let r := on_data (wire_frame payload ++ more) w in
  fst r = Normal tt /\
  _readQueue (this (snd r)) = callback :: rest /\
  promises (snd r) = promises w /\
  _messageQueue (this (snd r)) = [] /\
  _remainingMessageSize (this (snd r)) = - len more.
Proof.
  intros Hrq Hmq Hrem Hlen Hmore. cbn zeta.
  assert (0 < len more) as Hpos by (unfold len; destruct more; [congruence|cbn; lia]).
  assert (len (wire_frame payload ++ more) = len payload + 4 + len more) as Hsize.
  { pose proof (len_wire_frame payload) as Hw. unfold len in *.
    rewrite length_app. lia. }
  assert (readUint32 (wire_frame payload ++ more) 0 = Normal (len payload)) as Hread.
  { unfold wire_frame. rewrite <- app_assoc.
    apply readUint32_header. unfold len in *. lia. }
  rewrite on_data_eq.
  erewrite processMessageQueue_eq by (cbn; rewrite ?Hmq, ?Hrq; reflexivity).
  unfold bind.
  rewrite (processChunk_surplus _ _ (len payload)) by (cbn; auto; lia).
  rewrite processLoop_no_chunk by (cbn; rewrite Hmq; reflexivity).
  unfold swallowed, buffered.
  cbn [fst snd this promises _readQueue _messageQueue _remainingMessageSize
         with_messageQueue with_remainingMessageSize with_incompleteMessage].
  rewrite Hrq, Hmq, Hsize. cbn [app tl].
  repeat split; auto. lia.
Qed.

End Surplus.

(** ** The properties above on sample inputs *)

Lemma ascii_text_check (s : jsstring) :
  forallb (fun u => (0 <=? u) && (u <? 128)) s = true -> ascii_text s.
Proof.
  intros Hall. apply Forall_forall. intros u Hin.
  rewrite forallb_forall in Hall. specialize (Hall u Hin).
  apply andb_true_iff in Hall. destruct Hall as [Hlo Hhi].
  apply Z.leb_le in Hlo. apply Z.ltb_lt in Hhi. lia.
Qed.

Lemma uint32_write_read_witness :
  (0 <= 7 < 2 ^ 32 /\ 0 <= 1 /\ 1 + 4 <= len [0; 0; 0; 0; 0; 0]) /\
  exists written : Buffer,
    writeUint32 [0; 0; 0; 0; 0; 0] 7 1 = Normal written /\
    readUint32 written 1 = Normal 7 /\
    length written = length [0; 0; 0; 0; 0; 0] /\
    firstn (Z.to_nat 1) written = firstn (Z.to_nat 1) [0; 0; 0; 0; 0; 0] /\
    skipn (Z.to_nat 1 + 4) written = skipn (Z.to_nat 1 + 4) [0; 0; 0; 0; 0; 0].
Proof.
  assert (0 <= 7 < 2 ^ 32) as Hv by (split; [discriminate|reflexivity]).
  assert (0 <= 1) as Hoff by discriminate.
  assert (1 + 4 <= len [0; 0; 0; 0; 0; 0]) as Hroom by discriminate.
  split; [auto|].
  exact (uint32_write_read (RT := node_le) [0; 0; 0; 0; 0; 0] 7 1 Hv Hoff Hroom).
Defined.

Lemma messageBuffer_is_frame_witness :
  len (JSON_stringify e_acute) < 2 ^ 32 /\
  let payload := written_payload (JSON_stringify e_acute) in
  payload = [34; 195; 169] /\
  messageBuffer e_acute = Normal (wire_frame payload) /\
  len payload = len (JSON_stringify e_acute) /\
  readUint32 (wire_frame payload) 0 = Normal (len (JSON_stringify e_acute)).
Proof.
  assert (len (JSON_stringify e_acute) < 2 ^ 32) as Hlen by reflexivity.
  split; [exact Hlen|]. split; [reflexivity|].
  exact (messageBuffer_is_frame (RT := node_le) e_acute Hlen).
Defined.

Lemma sends_are_written_in_order_witness :
  (stdin_error (_process (this (initial Firefox))) = None /\
   Forall (fun v => len (JSON_stringify v) < 2 ^ 32) [value_a1; e_acute]) /\
  run (map EvSend [value_a1; e_acute]) (initial Firefox)
  = (repeat (Normal tt) 2,
     sent (map (fun v => wire_frame (written_payload (JSON_stringify v)))
             [value_a1; e_acute]) (initial Firefox)).
Proof.
  assert (Forall (fun v : JSValue => len (JSON_stringify v) < 2 ^ 32) [value_a1; e_acute])
    as Hall by (repeat constructor).
  split; [split; [reflexivity|exact Hall]|].
  exact (sends_are_written_in_order (RT := node_le) [value_a1; e_acute] (initial Firefox)
           eq_refl Hall).
Defined.


Lemma data_without_reader_is_buffered_witness :
  _readQueue (this (initial (RT := node_le) Firefox)) = [] /\
  run (map EvData [[7; 0]; frame_a1]) (initial Firefox)
  = (repeat (Normal tt) 2, queued [[7; 0]; frame_a1] (initial Firefox)).
Proof.
  split; [reflexivity|].
  exact (data_without_reader_is_buffered (RT := node_le) [[7; 0]; frame_a1]
           (initial Firefox) eq_refl).
Defined.

Lemma readMessage_never_throws_witness :
  let after := snd (readMessage None short_chunk_buffered) in
  _messageQueue (this short_chunk_buffered) = [[7; 0]] /\
  fst (processMessageQueue (registered None short_chunk_buffered)) = Abrupt RangeError /\
  fst (readMessage None short_chunk_buffered) = Normal 0%nat /\
  nth_error (promises after) 0 = Some (Rejected RangeError).
Proof.
  cbv zeta.
  assert (sane short_chunk_buffered) as Hsane
    by (exact (proj1 (run_sane [EvData [7; 0]] _ (initial_sane Firefox)))).
  split; [reflexivity|]. split; [reflexivity|].
  split.
  - exact (proj1 (readMessage_never_throws (RT := node_le) None short_chunk_buffered)).
  - exact (proj1 (proj2 (proj2 (proj2
             (readMessage_never_throws (RT := node_le) None short_chunk_buffered)))
             RangeError eq_refl Hsane)).
Defined.

Lemma frames_settle_queued_readers_only_witness :
  (forall callback, In callback (_readQueue (this orphan_and_reader)) ->
                    promise_of callback <> 0%nat) /\
  promises (snd (on_data frame_a1 orphan_and_reader)) = [Pending; Fulfilled value_a1] /\
  nth_error (promises (snd (on_data frame_a1 orphan_and_reader))) 0
  = nth_error (promises orphan_and_reader) 0.
Proof.
  assert (forall callback, In callback (_readQueue (this orphan_and_reader)) ->
                           promise_of callback <> 0%nat) as Hout
    by (intros callback [<-|[]]; discriminate).
  split; [exact Hout|]. split; [reflexivity|].
  exact (proj1 (frames_settle_queued_readers_only (RT := node_le) orphan_and_reader 0 Hout)
           frame_a1).
Defined.

Lemma frame_in_time_cancels_timeout_witness :
  (100 <> 0 /\
   _readQueue (this (initial (RT := node_le) Firefox)) = [] /\
   _messageQueue (this (initial (RT := node_le) Firefox)) = [] /\
   _remainingMessageSize (this (initial (RT := node_le) Firefox)) <= 0 /\
   json_of [49] (Json.JNumber 1)) /\
  let r := run [EvRead (Some 100); EvData (wire_frame [49]); EvTimeout 0]
               (initial Firefox) in
  fst r = [Normal tt; Normal tt; Normal tt] /\
  promises (snd r) = [Fulfilled (Json.JNumber 1)] /\
  _readQueue (this (snd r)) = [] /\
  ~ In 0%nat (timers (snd r)).
Proof.
  assert (100 <> 0) as Hms by discriminate.
  assert (0 <= 0) as Hrem by discriminate.
  assert (json_of (RT := node_le) [49] (Json.JNumber 1)) as Hjson
    by (split; reflexivity).
  split; [repeat split; auto|].
  exact (frame_in_time_cancels_timeout (RT := node_le) (initial Firefox) 100 [49]
           (Json.JNumber 1) Hms eq_refl eq_refl Hrem Hjson).
Defined.

Lemma normal_step_empties_a_queue_witness :
  fst (on_data frame_a1 one_reader) = Normal tt /\
  (_readQueue (this (snd (on_data frame_a1 one_reader))) = [] \/
   _messageQueue (this (snd (on_data frame_a1 one_reader))) = []).
Proof.
  split; [reflexivity|].
  exact (normal_step_empties_a_queue (RT := node_le) frame_a1 one_reader eq_refl).
Defined.

Lemma short_head_chunk_blocks_witness :
  let w := buffered [7; 0] one_reader in
  (_messageQueue (this w) = [[7; 0]] /\
   len [7; 0] < 4 /\
   _readQueue (this w) = [Resolve 0] /\
   _remainingMessageSize (this w) <= 0) /\
  run (map EvData [skipn 2 frame_a1]) w
  = (repeat (Abrupt RangeError) 1, queued [skipn 2 frame_a1] w).
Proof.
  assert (len [7; 0] < 4) as Hshort by reflexivity.
  assert (0 <= 0) as Hrem by discriminate.
  split; [repeat split; auto|].
  exact (short_head_chunk_blocks (RT := node_le) [skipn 2 frame_a1]
           (buffered [7; 0] one_reader) [7; 0] [] (Resolve 0) []
           eq_refl Hshort eq_refl Hrem).
Defined.

Lemma disconnect_after_end_kills_nothing_witness :
  In EvProcessExit [EvProcessError; EvProcessClose; EvProcessExit] /\
  let r := run [EvProcessExit; EvDisconnect] (initial (RT := node_le) Firefox) in
  fst r = [Normal tt; Normal tt] /\
  kills (_process (this (snd r))) = kills (_process (this (initial (RT := node_le) Firefox))) /\
  _connected (this (snd r)) = false.
Proof.
  assert (In (EvProcessExit (RT := node_le))
            [EvProcessError; EvProcessClose; EvProcessExit]) as Hin
    by (right; right; left; reflexivity).
  split; [exact Hin|].
  exact (disconnect_after_end_kills_nothing (RT := node_le) EvProcessExit
           (initial Firefox) Hin).
Defined.

Lemma findManifest_returns_regular_file_witness :
  let h := chrome_host (units "{}") in
  findManifest h "myapp" ManifestSearchLocation.All
  = Normal (Some (chrome_manifest_path, Chrome)) /\
  exists searchPath,
    In (Normal (searchPath, Chrome)) (getManifestLocations h ManifestSearchLocation.All) /\
    chrome_manifest_path = manifest_at searchPath "myapp" /\
    regular h chrome_manifest_path = true.
Proof.
  split; [reflexivity|].
  exact (findManifest_returns_regular_file (chrome_host (units "{}")) "myapp"
           ManifestSearchLocation.All chrome_manifest_path Chrome eq_refl).
Defined.

Lemma scope_filters_search_order_witness :
  let h := chrome_host (units "{}") in
  env_HOME h = Some "/home/user"%string /\
  getManifestLocations h ManifestSearchLocation.Chrome
  = filter (in_scope ManifestSearchLocation.Chrome)
      (getManifestLocations h ManifestSearchLocation.All) /\
  getManifestLocations h ManifestSearchLocation.Chrome
  = [Normal ("/etc/opt/chrome/native-messaging-hosts"%string, Chrome)].
Proof.
  split; [reflexivity|]. split; [|reflexivity].
  exact (scope_filters_search_order (chrome_host (units "{}"))
           ManifestSearchLocation.Chrome "/home/user" eq_refl).
Defined.

Lemma create_fails_off_linux_witness :
  let h := darwin_host (Json.stringify myapp_manifest) in
  String.eqb (os_platform h) "linux" = false /\
  regular h chrome_manifest_path = true /\
  create (RT := node_le) h "myapp" None = Abrupt TypeError.
Proof.
  split; [reflexivity|]. split; [reflexivity|].
  exact (create_fails_off_linux (RT := node_le) (darwin_host (Json.stringify myapp_manifest))
           "myapp" None eq_refl).
Defined.

Lemma create_without_home_witness :
  let h := homeless_host (Json.stringify myapp_manifest) in
  (String.eqb (os_platform h) "linux" = true /\
   env_HOME h = None /\
   enabled (scope_of None) ManifestSearchLocation.Firefox = true /\
   regular h (manifest_at "/usr/lib/mozilla/native-messaging-hosts/" "myapp") = false) /\
  regular h chrome_manifest_path = true /\
  create (RT := node_le) h "myapp" None = Abrupt TypeError.
Proof.
  split; [repeat split; reflexivity|]. split; [reflexivity|].
  exact (create_without_home (RT := node_le) (homeless_host (Json.stringify myapp_manifest))
           "myapp" None eq_refl eq_refl eq_refl eq_refl).
Defined.

Lemma loopback_frame_per_chunk_witness :
  Forall sendable [value_a1; Json.JNumber 1] /\
  exists chunks : list Buffer,
    map messageBuffer [value_a1; Json.JNumber 1] = map Normal chunks /\
    let r := run (repeat (EvRead None) 2 ++ map EvData chunks) (initial Firefox) in
    fst r = repeat (Normal tt) (2 + 2) /\
    promises (snd r) = map Fulfilled [value_a1; Json.JNumber 1] /\
    _readQueue (this (snd r)) = [] /\
    _messageQueue (this (snd r)) = [].
Proof.
  assert (Forall (sendable (RT := node_le)) [value_a1; Json.JNumber 1]) as Hall
    by (constructor; [|constructor; [|constructor]];
        (split; [apply ascii_text_check; reflexivity | split; reflexivity])).
  split; [exact Hall|].
  exact (loopback_frame_per_chunk (RT := node_le) [value_a1; Json.JNumber 1] Firefox Hall).
Defined.

Lemma surplus_chunk_is_dropped_witness :
  (_readQueue (this one_reader) = [Resolve 0] /\
   _messageQueue (this one_reader) = [] /\
   _remainingMessageSize (this one_reader) <= 0 /\
   len [49] < 2 ^ 32 /\
   wire_frame [50] <> []) /\
  let r := on_data (wire_frame [49] ++ wire_frame [50]) one_reader in
  fst r = Normal tt /\
  _readQueue (this (snd r)) = [Resolve 0] /\
  promises (snd r) = promises one_reader /\
  _messageQueue (this (snd r)) = [] /\
  _remainingMessageSize (this (snd r)) = - len (wire_frame [50]).
Proof.
  assert (0 <= 0) as Hrem by discriminate.
  assert (len [49] < 2 ^ 32) as Hlen by reflexivity.
  assert (wire_frame (RT := node_le) [50] <> []) as Hmore by discriminate.
  split; [repeat split; auto|].
  exact (surplus_chunk_is_dropped (RT := node_le) one_reader [49] (wire_frame [50])
           (Resolve 0) [] eq_refl eq_refl Hrem Hlen Hmore).
Defined.
